(** * FlowVectorCorrections: Qn vectors and correction steps

    A shallow embedding of the Qn vector classes
    (QnCorrectionsQnVectors.cxx and the QnCorrectionsQnVector.cxx part of
    QnCorrectionsDataVector.cxx), of the input gain equalization step
    (QnCorrectionsInputGainEqualization.cxx) and of the recentering step
    (QnCorrectionsQnVectorRecentering.cxx). *)

From Stdlib Require Import ZArith Floats.
From stdpp Require Import base list strings gmap sorting.

Set Warnings "-inexact-float".

Local Open Scope Z_scope.

(** ** Float_t arithmetic

    The C++ code computes on [Float_t] values.  The embedding is parametric
    in the arithmetic: a carrier with the operations the sources use and the
    constant [fMinimumSignificantValue = 1e-6].  The properties of the code
    below hold for every such arithmetic; the concrete runs use the instance
    over the IEEE 754 binary64 floats of the kernel. *)

Class FloatOps (F : Type) : Type := {
  fzero : F;                       (* 0.0 *)
  fone : F;                        (* 1.0 *)
  fMinimumSignificantValue : F;    (* 1e-6 *)
  fadd : F -> F -> F;
  fsub : F -> F -> F;
  fmul : F -> F -> F;
  fdiv : F -> F -> F;
  fsqrt : F -> F;                  (* TMath::Sqrt *)
  fltb : F -> F -> bool            (* a < b *)
}.

#[export] Instance FloatOps_inhabited `{FloatOps F} : Inhabited F := populate fzero.

Declare Scope Float_t_scope.
Delimit Scope Float_t_scope with F.
Infix "+" := fadd : Float_t_scope.
Infix "-" := fsub : Float_t_scope.
Infix "*" := fmul : Float_t_scope.
Infix "/" := fdiv : Float_t_scope.
Infix "<?" := fltb : Float_t_scope.

(** IEEE 754 binary64 arithmetic of the kernel, for running the code on
    concrete values. *)
#[export] Instance float_ops : FloatOps float := {|
  fzero := 0%float;
  fone := 1%float;
  fMinimumSignificantValue := 1e-6%float;
  fadd := PrimFloat.add;
  fsub := PrimFloat.sub;
  fmul := PrimFloat.mul;
  fdiv := PrimFloat.div;
  fsqrt := PrimFloat.sqrt;
  fltb := PrimFloat.ltb
|}.

(** QnCorrectionsFatal stops processing: an operation either completes with
    a value or ends in the fatal error. *)
Inductive outcome (A : Type) : Type :=
| Done (a : A)
| Fatal.
Arguments Done {A} a.
Arguments Fatal {A}.

(** ** Int_t arithmetic

    [Int_t] is a 32 bit signed integer.  A sum that leaves the range
    [-2^31 .. 2^31 - 1] wraps around in two's complement, as the compiled
    code does. *)
Definition Int_t_wrap (z : Z) : Z := (z + 2 ^ 31) mod 2 ^ 32 - 2 ^ 31.
Definition Int_t_add (a b : Z) : Z := Int_t_wrap (a + b).


(** ** Arrays of components *)

(** The maximum external harmonic number the framework supports. *)
Definition nMaxHarmonicNumberSupported : Z := 15.
Definition MAXHARMONICNUMBERSUPPORTED : Z := 15.

(** Mask for each external harmonic number. *)
Definition harmonicNumberMask : list Z :=
  [0x0000; 0x0002; 0x0004; 0x0008; 0x0010; 0x0020; 0x0040; 0x0080;
   0x0100; 0x0200; 0x0400; 0x0800; 0x1000; 0x2000; 0x4000; 0x8000].

Section Arrays.
Context {A : Type} `{!Inhabited A}.

(** [a[h]] for an [Int_t] index.  The sources index the arrays with
    [0 <= h <= 15] only.  An index outside of the array is undefined in C++;
    here a negative index reads element 0 and an index past the end reads
    the default value of the type. *)
Definition rd (a : list A) (h : Z) : A := a !!! Z.to_nat h.

(** [a[h] = v]. *)
Definition wr (a : list A) (h : Z) (v : A) : list A := <[Z.to_nat h := v]> a.
End Arrays.


(** ** QnCorrectionsQnVectors.cxx: the Q vector classes without quality flag *)

Module QnVectors.
Section WithFloat.
Context {F : Type} `{!FloatOps F}.

(** [Float_t fQnX[nMaxHarmonicNumberSupported + 1]], [fQnY] likewise,
    [Int_t fHighestHarmonic], [UInt_t fHarmonicMask]. *)
Record QnCorrectionsQnVector : Type := mkQnVector {
  fQnX : list F;
  fQnY : list F;
  fHighestHarmonic : Z;
  fHarmonicMask : Z
}.

(** Derived class: the base object, [Float_t fSumW] and [Int_t fN]. *)
Record QnCorrectionsQnVectorBuild : Type := mkQnVectorBuild {
  Qn : QnCorrectionsQnVector;
  fSumW : F;
  fN : Z
}.

(** The arrays hold 16 components and the harmonic range is supported. *)
Definition wf (q : QnCorrectionsQnVector) : Prop :=
  length (fQnX q) = 16%nat /\ length (fQnY q) = 16%nat /\
  fHighestHarmonic q <= nMaxHarmonicNumberSupported.

(** Harmonic [h] takes part in the Q vector: it is within the loop range
    [1 .. fHighestHarmonic] and its bit is set in the mask. *)
Definition active (q : QnCorrectionsQnVector) (h : Z) : bool :=
  (1 <=? h) && (h <=? fHighestHarmonic q) &&
  (Z.land (fHarmonicMask q) (rd harmonicNumberMask h) =? rd harmonicNumberMask h).

(** The condition as this file writes it,
    [fHarmonicMask & harmonicNumberMask[h] == harmonicNumberMask[h]]:
    [==] binds tighter than [&] in C++, so it reads
    [fHarmonicMask & (harmonicNumberMask[h] == harmonicNumberMask[h])],
    and the comparison yields the integer 1 or 0. *)
Definition mask_condition (q : QnCorrectionsQnVector) (h : Z) : bool :=
  negb (Z.land (fHarmonicMask q)
          (Z.b2z (rd harmonicNumberMask h =? rd harmonicNumberMask h)) =? 0).

(** Modelled from the spec: the accessors [Qx], [Qy] and the unit-length
    helpers [Length], [QxNorm], [QyNorm] are declared in
    QnCorrectionsQnVectors.h, which is not among the sources.  They are
    const member functions: they read the components the object holds when
    they are called, and [QxNorm], [QyNorm] are the component over the
    vector length [|Q|] of that harmonic. *)
Definition Qx (q : QnCorrectionsQnVector) (h : Z) : F := rd (fQnX q) h.
Definition Qy (q : QnCorrectionsQnVector) (h : Z) : F := rd (fQnY q) h.
Definition Length (q : QnCorrectionsQnVector) (h : Z) : F :=
  fsqrt (Qx q h * Qx q h + Qy q h * Qy q h)%F.
Definition QxNorm (q : QnCorrectionsQnVector) (h : Z) : F := (Qx q h / Length q h)%F.
Definition QyNorm (q : QnCorrectionsQnVector) (h : Z) : F := (Qy q h / Length q h)%F.

Definition GetSumOfWeights (b : QnCorrectionsQnVectorBuild) : F := fSumW b.
Definition GetN (b : QnCorrectionsQnVectorBuild) : Z := fN b.

(** [fQnX[h] = x; fQnY[h] = y] *)
Definition set_components (q : QnCorrectionsQnVector) (h : Z) (x y : F) :=
  {| fQnX := wr (fQnX q) h x; fQnY := wr (fQnY q) h y;
     fHighestHarmonic := fHighestHarmonic q; fHarmonicMask := fHarmonicMask q |}.

(** Default constructor. *)
Definition default : QnCorrectionsQnVector :=
  {| fQnX := replicate 16 fzero; fQnY := replicate 16 fzero;
     fHighestHarmonic := 0; fHarmonicMask := 0x0000 |}.

(** Normal constructor; [harmonicMap] is [None] for a NULL pointer. *)
Definition new (nNoOfHarmonics : Z) (harmonicMap : option (list Z))
  : outcome QnCorrectionsQnVector :=
  let highest :=
    match harmonicMap with
    | Some m => rd m (nNoOfHarmonics - 1)
    | None => nNoOfHarmonics
    end in
  if nMaxHarmonicNumberSupported <? highest then Fatal
  else
    let loop :=
      foldl (fun '(mask, currentHarmonic) h =>
               let currentHarmonic :=
                 match harmonicMap with
                 | Some m => rd m h
                 | None => currentHarmonic + 1
                 end in
               (Z.lor mask (rd harmonicNumberMask currentHarmonic), currentHarmonic))
            (0x0000, 0) (seqZ 0 nNoOfHarmonics) in
    Done {| fQnX := replicate 16 fzero; fQnY := replicate 16 fzero;
            fHighestHarmonic := highest; fHarmonicMask := fst loop |}.

Definition ActivateHarmonic (q : QnCorrectionsQnVector) (harmonic : Z)
  : outcome QnCorrectionsQnVector :=
  if nMaxHarmonicNumberSupported <? harmonic then Fatal
  else if fHighestHarmonic q <? harmonic then
    Done {| fQnX := wr (fQnX q) harmonic fzero;
            fQnY := wr (fQnY q) harmonic fzero;
            fHighestHarmonic := harmonic;
            fHarmonicMask := Z.lor (fHarmonicMask q) (rd harmonicNumberMask harmonic) |}
  else if mask_condition q harmonic then
    Done q
  else
    Done {| fQnX := wr (fQnX q) harmonic fzero;
            fQnY := wr (fQnY q) harmonic fzero;
            fHighestHarmonic := fHighestHarmonic q;
            fHarmonicMask := Z.lor (fHarmonicMask q) (rd harmonicNumberMask harmonic) |}.

(** Copy member function: no comparison of the harmonic structures, the
    structure is copied with the components. *)
Definition Set_ (q other : QnCorrectionsQnVector) : outcome QnCorrectionsQnVector :=
  Done {| fQnX := fQnX other; fQnY := fQnY other;
          fHighestHarmonic := fHighestHarmonic other;
          fHarmonicMask := fHarmonicMask other |}.

Definition Normalize_body (q : QnCorrectionsQnVector) (h : Z) : QnCorrectionsQnVector :=
  if mask_condition q h then
    let q1 := {| fQnX := wr (fQnX q) h (QxNorm q h); fQnY := fQnY q;
                 fHighestHarmonic := fHighestHarmonic q;
                 fHarmonicMask := fHarmonicMask q |} in
    {| fQnX := fQnX q1; fQnY := wr (fQnY q1) h (QyNorm q1 h);
       fHighestHarmonic := fHighestHarmonic q1; fHarmonicMask := fHarmonicMask q1 |}
  else q.

Definition Normalize (q : QnCorrectionsQnVector) : QnCorrectionsQnVector :=
  foldl Normalize_body q (seqZ 1 (fHighestHarmonic q)).

Definition Reset (q : QnCorrectionsQnVector) : QnCorrectionsQnVector :=
  {| fQnX := replicate 16 fzero; fQnY := replicate 16 fzero;
     fHighestHarmonic := fHighestHarmonic q; fHarmonicMask := fHarmonicMask q |}.

Definition with_Qn (b : QnCorrectionsQnVectorBuild) (q : QnCorrectionsQnVector) :=
  {| Qn := q; fSumW := fSumW b; fN := fN b |}.

Definition BuildSet (b other : QnCorrectionsQnVectorBuild)
  : outcome QnCorrectionsQnVectorBuild :=
  match Set_ (Qn b) (Qn other) with
  | Fatal => Fatal
  | Done q => Done {| Qn := q; fSumW := fSumW other; fN := fN other |}
  end.

Definition Add_body (other : QnCorrectionsQnVectorBuild)
    (q : QnCorrectionsQnVector) (h : Z) : QnCorrectionsQnVector :=
  if mask_condition q h then
    set_components q h (rd (fQnX q) h + Qx (Qn other) h)%F
                       (rd (fQnY q) h + Qy (Qn other) h)%F
  else q.

Definition Add (b other : QnCorrectionsQnVectorBuild) : QnCorrectionsQnVectorBuild :=
  {| Qn := foldl (Add_body other) (Qn b) (seqZ 1 (fHighestHarmonic (Qn b)));
     fSumW := (fSumW b + GetSumOfWeights other)%F;
     fN := Int_t_add (fN b) (GetN other) |}.

(** The loop is the statement governed by [if (fSumW < fMinimumSignificantValue)]. *)
Definition NormalizeQoverM_body (sumW : F)
    (q : QnCorrectionsQnVector) (h : Z) : QnCorrectionsQnVector :=
  if mask_condition q h then
    set_components q h (rd (fQnX q) h + rd (fQnX q) h / sumW)%F
                       (rd (fQnY q) h + rd (fQnY q) h / sumW)%F
  else q.

Definition NormalizeQoverM (b : QnCorrectionsQnVectorBuild) : QnCorrectionsQnVectorBuild :=
  if (fSumW b <? fMinimumSignificantValue)%F then
    with_Qn b (foldl (NormalizeQoverM_body (fSumW b)) (Qn b)
                     (seqZ 1 (fHighestHarmonic (Qn b))))
  else b.

Definition NormalizeQoverSquareRootOfM_body (sumW : F)
    (q : QnCorrectionsQnVector) (h : Z) : QnCorrectionsQnVector :=
  if mask_condition q h then
    set_components q h (rd (fQnX q) h + rd (fQnX q) h / fsqrt sumW)%F
                       (rd (fQnY q) h + rd (fQnY q) h / fsqrt sumW)%F
  else q.

Definition NormalizeQoverSquareRootOfM (b : QnCorrectionsQnVectorBuild)
  : QnCorrectionsQnVectorBuild :=
  if (fSumW b <? fMinimumSignificantValue)%F then
    with_Qn b (foldl (NormalizeQoverSquareRootOfM_body (fSumW b)) (Qn b)
                     (seqZ 1 (fHighestHarmonic (Qn b))))
  else b.

Definition BuildReset (b : QnCorrectionsQnVectorBuild) : QnCorrectionsQnVectorBuild :=
  {| Qn := Reset (Qn b); fSumW := fzero; fN := 0 |}.

End WithFloat.
Arguments QnCorrectionsQnVector F : clear implicits.
Arguments QnCorrectionsQnVectorBuild F : clear implicits.
End QnVectors.

(** ** QnCorrectionsQnVector.cxx (second part of QnCorrectionsDataVector.cxx):
       the Q vector classes with name and quality flag *)

Module QnVector.
Section WithFloat.
Context {F : Type} `{!FloatOps F}.

(** [TNamed] name and title, [Float_t fQnX[MAXHARMONICNUMBERSUPPORTED + 1]],
    [fQnY] likewise, [Int_t fHighestHarmonic], [UInt_t fHarmonicMask],
    [Bool_t fGoodQuality]. *)
Record QnCorrectionsQnVector : Type := mkQnVector {
  fName : string;
  fTitle : string;
  fQnX : list F;
  fQnY : list F;
  fHighestHarmonic : Z;
  fHarmonicMask : Z;
  fGoodQuality : bool
}.

(** Derived class: the base object, [Float_t fSumW] and [Int_t fN]. *)
Record QnCorrectionsQnVectorBuild : Type := mkQnVectorBuild {
  Qn : QnCorrectionsQnVector;
  fSumW : F;
  fN : Z
}.

(** The arrays hold 16 components and the harmonic range is supported. *)
Definition wf (q : QnCorrectionsQnVector) : Prop :=
  length (fQnX q) = 16%nat /\ length (fQnY q) = 16%nat /\
  fHighestHarmonic q <= MAXHARMONICNUMBERSUPPORTED.

(** [(fHarmonicMask & harmonicNumberMask[h]) == harmonicNumberMask[h]] *)
Definition mask_condition (q : QnCorrectionsQnVector) (h : Z) : bool :=
  Z.land (fHarmonicMask q) (rd harmonicNumberMask h) =? rd harmonicNumberMask h.

(** Harmonic [h] takes part in the Q vector: it is within the loop range
    [1 .. fHighestHarmonic] and its bit is set in the mask. *)
Definition active (q : QnCorrectionsQnVector) (h : Z) : bool :=
  (1 <=? h) && (h <=? fHighestHarmonic q) && mask_condition q h.

(** Modelled from the spec: the accessors and setters [Qx], [Qy], [SetQx],
    [SetQy], [IsGoodQuality], [SetGood] and the unit-length helpers [Length],
    [QxNorm], [QyNorm] are declared in QnCorrectionsQnVector.h, which is not
    among the sources.  The const member functions read the components the
    object holds when they are called; [QxNorm], [QyNorm] are the component
    over the vector length [|Q|] of that harmonic. *)
Definition Qx (q : QnCorrectionsQnVector) (h : Z) : F := rd (fQnX q) h.
Definition Qy (q : QnCorrectionsQnVector) (h : Z) : F := rd (fQnY q) h.
Definition Length (q : QnCorrectionsQnVector) (h : Z) : F :=
  fsqrt (Qx q h * Qx q h + Qy q h * Qy q h)%F.
Definition QxNorm (q : QnCorrectionsQnVector) (h : Z) : F := (Qx q h / Length q h)%F.
Definition QyNorm (q : QnCorrectionsQnVector) (h : Z) : F := (Qy q h / Length q h)%F.
Definition IsGoodQuality (q : QnCorrectionsQnVector) : bool := fGoodQuality q.

Definition with_X (q : QnCorrectionsQnVector) (x : list F) : QnCorrectionsQnVector :=
  {| fName := fName q; fTitle := fTitle q; fQnX := x; fQnY := fQnY q;
     fHighestHarmonic := fHighestHarmonic q; fHarmonicMask := fHarmonicMask q;
     fGoodQuality := fGoodQuality q |}.
Definition with_Y (q : QnCorrectionsQnVector) (y : list F) : QnCorrectionsQnVector :=
  {| fName := fName q; fTitle := fTitle q; fQnX := fQnX q; fQnY := y;
     fHighestHarmonic := fHighestHarmonic q; fHarmonicMask := fHarmonicMask q;
     fGoodQuality := fGoodQuality q |}.

Definition SetQx (q : QnCorrectionsQnVector) (h : Z) (qx : F) : QnCorrectionsQnVector :=
  with_X q (wr (fQnX q) h qx).
Definition SetQy (q : QnCorrectionsQnVector) (h : Z) (qy : F) : QnCorrectionsQnVector :=
  with_Y q (wr (fQnY q) h qy).
Definition SetGood (q : QnCorrectionsQnVector) (good : bool) : QnCorrectionsQnVector :=
  {| fName := fName q; fTitle := fTitle q; fQnX := fQnX q; fQnY := fQnY q;
     fHighestHarmonic := fHighestHarmonic q; fHarmonicMask := fHarmonicMask q;
     fGoodQuality := good |}.

(** [for (h = first; h < fHighestHarmonic + 1; h++) if (condition) return h;
    return -1;] with [n] values of [h] left to visit. *)
Fixpoint scan (cond : Z -> bool) (h : Z) (n : nat) : Z :=
  match n with
  | O => -1
  | S n' => if cond h then h else scan cond (h + 1) n'
  end.

(** Modelled from the spec: [GetFirstHarmonic] and [GetNextHarmonic] are
    declared in QnCorrectionsQnVector.h, which is not among the sources; they
    produce the ascending sequence of the active harmonic numbers and return
    the sentinel -1 when it is exhausted. *)
Definition GetFirstHarmonic (q : QnCorrectionsQnVector) : Z :=
  scan (mask_condition q) 1 (Z.to_nat (fHighestHarmonic q)).
Definition GetNextHarmonic (q : QnCorrectionsQnVector) (harmonic : Z) : Z :=
  scan (mask_condition q) (harmonic + 1) (Z.to_nat (fHighestHarmonic q - harmonic)).

(** [h = q->GetFirstHarmonic(); while (h != -1) { body; h = q->GetNextHarmonic(h); }]
    entered with the current [h].  Each round moves [h] up within
    [1 .. fHighestHarmonic] or to -1; [variant] bounds the rounds left. *)
Fixpoint while_harmonic {A : Type} (variant : nat) (q : QnCorrectionsQnVector)
    (body : Z -> A -> A) (h : Z) (a : A) : A :=
  match variant with
  | O => a
  | S n => if h =? -1 then a
           else while_harmonic n q body (GetNextHarmonic q h) (body h a)
  end.

Definition for_each_harmonic {A : Type} (q : QnCorrectionsQnVector)
    (body : Z -> A -> A) (a : A) : A :=
  while_harmonic (S (Z.to_nat (fHighestHarmonic q))) q body (GetFirstHarmonic q) a.

(** Default constructor. *)
Definition default : QnCorrectionsQnVector :=
  {| fName := EmptyString; fTitle := EmptyString;
     fQnX := replicate 16 fzero; fQnY := replicate 16 fzero;
     fHighestHarmonic := 0; fHarmonicMask := 0x0000; fGoodQuality := false |}.

(** Normal constructor; [harmonicMap] is [None] for a NULL pointer. *)
Definition new (name : string) (nNoOfHarmonics : Z) (harmonicMap : option (list Z))
  : outcome QnCorrectionsQnVector :=
  let highest :=
    match harmonicMap with
    | Some m => rd m (nNoOfHarmonics - 1)
    | None => nNoOfHarmonics
    end in
  if MAXHARMONICNUMBERSUPPORTED <? highest then Fatal
  else
    let loop :=
      foldl (fun '(mask, currentHarmonic) h =>
               let currentHarmonic :=
                 match harmonicMap with
                 | Some m => rd m h
                 | None => currentHarmonic + 1
                 end in
               (Z.lor mask (rd harmonicNumberMask currentHarmonic), currentHarmonic))
            (0x0000, 0) (seqZ 0 nNoOfHarmonics) in
    Done {| fName := name; fTitle := name;
            fQnX := replicate 16 fzero; fQnY := replicate 16 fzero;
            fHighestHarmonic := highest; fHarmonicMask := fst loop;
            fGoodQuality := false |}.

Definition activate (q : QnCorrectionsQnVector) (highest harmonic : Z) :=
  {| fName := fName q; fTitle := fTitle q;
     fQnX := wr (fQnX q) harmonic fzero;
     fQnY := wr (fQnY q) harmonic fzero;
     fHighestHarmonic := highest;
     fHarmonicMask := Z.lor (fHarmonicMask q) (rd harmonicNumberMask harmonic);
     fGoodQuality := fGoodQuality q |}.

Definition ActivateHarmonic (q : QnCorrectionsQnVector) (harmonic : Z)
  : outcome QnCorrectionsQnVector :=
  if MAXHARMONICNUMBERSUPPORTED <? harmonic then Fatal
  else if fHighestHarmonic q <? harmonic then
    (* not, include it *)
    Done (activate q harmonic harmonic)
  else if mask_condition q harmonic then
    (* already active *)
    Done q
  else
    (* activate it *)
    Done (activate q (fHighestHarmonic q) harmonic).

Definition GetNoOfHarmonics (q : QnCorrectionsQnVector) : Z :=
  foldl (fun n h => if mask_condition q h then n + 1 else n) 0
        (seqZ 1 (fHighestHarmonic q)).

(** The harmonic map written to [harmonicMapStore], in the order written. *)
Definition GetHarmonicsMap (q : QnCorrectionsQnVector) : list Z :=
  foldl (fun store h => if mask_condition q h then store ++ [h] else store) []
        (seqZ 1 (fHighestHarmonic q)).

(** Copy member function: the harmonic structures are compared and a run
    time error is raised if they do not match. *)
Definition Set_ (q other : QnCorrectionsQnVector) (changename : bool)
  : outcome QnCorrectionsQnVector :=
  if negb (fHighestHarmonic q =? fHighestHarmonic other)
     || negb (fHarmonicMask q =? fHarmonicMask other)
  then Fatal
  else
    Done {| fName := if changename then fName other else fName q;
            fTitle := if changename then fTitle other else fTitle q;
            fQnX := fQnX other; fQnY := fQnY other;
            fHighestHarmonic := fHighestHarmonic q;
            fHarmonicMask := fHarmonicMask q;
            fGoodQuality := fGoodQuality other |}.

(** [fQnX[h] = QxNorm(h); fQnY[h] = QyNorm(h);]: the second call reads the
    object after the first assignment. *)
Definition Normalize_body (q : QnCorrectionsQnVector) (h : Z) : QnCorrectionsQnVector :=
  if mask_condition q h then
    let q1 := with_X q (wr (fQnX q) h (QxNorm q h)) in
    with_Y q1 (wr (fQnY q1) h (QyNorm q1 h))
  else q.

Definition Normalize (q : QnCorrectionsQnVector) : QnCorrectionsQnVector :=
  foldl Normalize_body q (seqZ 1 (fHighestHarmonic q)).

Definition Reset (q : QnCorrectionsQnVector) : QnCorrectionsQnVector :=
  {| fName := fName q; fTitle := fTitle q;
     fQnX := replicate 16 fzero; fQnY := replicate 16 fzero;
     fHighestHarmonic := fHighestHarmonic q; fHarmonicMask := fHarmonicMask q;
     fGoodQuality := false |}.

Definition with_Qn (b : QnCorrectionsQnVectorBuild) (q : QnCorrectionsQnVector) :=
  {| Qn := q; fSumW := fSumW b; fN := fN b |}.

Definition GetSumOfWeights (b : QnCorrectionsQnVectorBuild) : F := fSumW b.
Definition GetN (b : QnCorrectionsQnVectorBuild) : Z := fN b.

(** The name is not copied from building Qn vectors. *)
Definition BuildSet (b other : QnCorrectionsQnVectorBuild)
  : outcome QnCorrectionsQnVectorBuild :=
  match Set_ (Qn b) (Qn other) false with
  | Fatal => Fatal
  | Done q => Done {| Qn := q; fSumW := fSumW other; fN := fN other |}
  end.

Definition Add_body (other : QnCorrectionsQnVectorBuild)
    (q : QnCorrectionsQnVector) (h : Z) : QnCorrectionsQnVector :=
  if mask_condition q h then
    let q1 := with_X q (wr (fQnX q) h (rd (fQnX q) h + Qx (Qn other) h)%F) in
    with_Y q1 (wr (fQnY q1) h (rd (fQnY q1) h + Qy (Qn other) h)%F)
  else q.

Definition Add (b other : QnCorrectionsQnVectorBuild) : QnCorrectionsQnVectorBuild :=
  {| Qn := foldl (Add_body other) (Qn b) (seqZ 1 (fHighestHarmonic (Qn b)));
     fSumW := (fSumW b + GetSumOfWeights other)%F;
     fN := Int_t_add (fN b) (GetN other) |}.

Definition NormalizeQoverM_body (sumW : F)
    (q : QnCorrectionsQnVector) (h : Z) : QnCorrectionsQnVector :=
  if mask_condition q h then
    let q1 := with_X q (wr (fQnX q) h (rd (fQnX q) h / sumW)%F) in
    with_Y q1 (wr (fQnY q1) h (rd (fQnY q1) h / sumW)%F)
  else q.

Definition NormalizeQoverM (b : QnCorrectionsQnVectorBuild) : QnCorrectionsQnVectorBuild :=
  if (fSumW b <? fMinimumSignificantValue)%F then b
  else
    with_Qn b (foldl (NormalizeQoverM_body (fSumW b)) (Qn b)
                     (seqZ 1 (fHighestHarmonic (Qn b)))).

Definition NormalizeQoverSquareRootOfM_body (sumW : F)
    (q : QnCorrectionsQnVector) (h : Z) : QnCorrectionsQnVector :=
  if mask_condition q h then
    let q1 := with_X q (wr (fQnX q) h (rd (fQnX q) h + rd (fQnX q) h / fsqrt sumW)%F) in
    with_Y q1 (wr (fQnY q1) h (rd (fQnY q1) h + rd (fQnY q1) h / fsqrt sumW)%F)
  else q.

Definition NormalizeQoverSquareRootOfM (b : QnCorrectionsQnVectorBuild)
  : QnCorrectionsQnVectorBuild :=
  if (fSumW b <? fMinimumSignificantValue)%F then b
  else
    with_Qn b (foldl (NormalizeQoverSquareRootOfM_body (fSumW b)) (Qn b)
                     (seqZ 1 (fHighestHarmonic (Qn b)))).

Definition BuildReset (b : QnCorrectionsQnVectorBuild) : QnCorrectionsQnVectorBuild :=
  {| Qn := Reset (Qn b); fSumW := fzero; fN := 0 |}.

(** The harmonic structures of two Q vectors match. *)
Definition same_structure (q1 q2 : QnCorrectionsQnVector) : Prop :=
  fHighestHarmonic q1 = fHighestHarmonic q2 /\ fHarmonicMask q1 = fHarmonicMask q2.

(** What a loop over the harmonics of [q] keeps of the vector [a] it works
    on: the shape of the arrays and every field but the components. *)
Definition loop_inv (q a : QnCorrectionsQnVector) : Prop :=
  length (fQnX a) = 16%nat /\ length (fQnY a) = 16%nat /\
  fHighestHarmonic a = fHighestHarmonic q /\ fHarmonicMask a = fHarmonicMask q /\
  fGoodQuality a = fGoodQuality q /\ fName a = fName q /\ fTitle a = fTitle q.

(** The structure the constructors and [ActivateHarmonic] build: the highest
    harmonic is active and the mask has no bit outside of the harmonics
    [1 .. fHighestHarmonic]. *)
Definition tight (q : QnCorrectionsQnVector) : Prop :=
  active q (fHighestHarmonic q) = true /\
  forall i, 0 <= i -> Z.testbit (fHarmonicMask q) i = true -> 1 <= i <= fHighestHarmonic q.

(** The active harmonics in ascending order. *)
Definition harmonics (q : QnCorrectionsQnVector) : list Z :=
  filter (fun h => mask_condition q h = true) (seqZ 1 (fHighestHarmonic q)).

End WithFloat.
Arguments QnCorrectionsQnVector F : clear implicits.
Arguments QnCorrectionsQnVectorBuild F : clear implicits.
End QnVector.

(** ** QnCorrectionsDataVector.h: data vectors of channelized detectors *)

Section DataVector.
Context {F : Type} `{!FloatOps F}.

(** [Float_t fPhi], [Int_t fId], [Float_t fWeight], [Float_t fEqualizedWeight]. *)
Record QnCorrectionsDataVectorChannelized : Type := mkDataVector {
  fPhi : F;
  fId : Z;
  fWeight : F;
  fEqualizedWeight : F
}.

Definition Phi (d : QnCorrectionsDataVectorChannelized) : F := fPhi d.
Definition GetId (d : QnCorrectionsDataVectorChannelized) : Z := fId d.
Definition Weight (d : QnCorrectionsDataVectorChannelized) : F := fWeight d.
Definition EqualizedWeight (d : QnCorrectionsDataVectorChannelized) : F :=
  fEqualizedWeight d.
Definition SetEqualizedWeight (d : QnCorrectionsDataVectorChannelized) (weight : F) :=
  {| fPhi := fPhi d; fId := fId d; fWeight := fWeight d; fEqualizedWeight := weight |}.

End DataVector.
Arguments QnCorrectionsDataVectorChannelized F : clear implicits.

(** ** The state of a correction step *)

Inductive QnCorrectionStepStatus : Type :=
| QCORRSTEP_calibration
| QCORRSTEP_applyCollect
| QCORRSTEP_apply.

(** The step applies its correction: [QCORRSTEP_applyCollect] or
    [QCORRSTEP_apply]. *)
Definition applying (state : QnCorrectionStepStatus) : bool :=
  match state with
  | QCORRSTEP_calibration => false
  | QCORRSTEP_applyCollect | QCORRSTEP_apply => true
  end.

(** ** The calibration store and the detector configuration

    The histogram classes and the accessors of the detector configuration
    are not among the sources.  The steps only need, of a profile, the bin
    of the event class variables, the content and the spread stored in a bin
    and whether the bin is validated; of a histogram, the bin and its
    content. *)

Section Collaborators.
Context {F : Type} `{!FloatOps F}.

(** Modelled from the spec: QnCorrectionsProfileComponents, the calibration
    store of the recentering step.  A bin is validated when its number of
    entries reaches the minimum number of entries; [pc_fills] records the
    [FillX] ([true]) and [FillY] ([false]) calls in order. *)
Record QnCorrectionsProfileComponents : Type := mkProfileComponents {
  pc_GetBin : list F -> Z;
  pc_entries : Z -> Z;
  pc_MinNoOfEntriesToValidate : Z;
  pc_XBinContent : Z -> Z -> F;
  pc_YBinContent : Z -> Z -> F;
  pc_XBinError : Z -> Z -> F;
  pc_YBinError : Z -> Z -> F;
  pc_fills : list (bool * Z * list F * F)
}.

Definition BinContentValidated (p : QnCorrectionsProfileComponents) (bin : Z) : bool :=
  pc_MinNoOfEntriesToValidate p <=? pc_entries p bin.
Definition GetXBinContent (p : QnCorrectionsProfileComponents) (harmonic bin : Z) : F :=
  pc_XBinContent p harmonic bin.
Definition GetYBinContent (p : QnCorrectionsProfileComponents) (harmonic bin : Z) : F :=
  pc_YBinContent p harmonic bin.
Definition GetXBinError (p : QnCorrectionsProfileComponents) (harmonic bin : Z) : F :=
  pc_XBinError p harmonic bin.
Definition GetYBinError (p : QnCorrectionsProfileComponents) (harmonic bin : Z) : F :=
  pc_YBinError p harmonic bin.
Definition SetNoOfEntriesThreshold (p : QnCorrectionsProfileComponents) (n : Z) :=
  {| pc_GetBin := pc_GetBin p; pc_entries := pc_entries p;
     pc_MinNoOfEntriesToValidate := n;
     pc_XBinContent := pc_XBinContent p; pc_YBinContent := pc_YBinContent p;
     pc_XBinError := pc_XBinError p; pc_YBinError := pc_YBinError p;
     pc_fills := pc_fills p |}.
Definition Fill_component (isX : bool) (p : QnCorrectionsProfileComponents)
    (harmonic : Z) (variableContainer : list F) (value : F) :=
  {| pc_GetBin := pc_GetBin p; pc_entries := pc_entries p;
     pc_MinNoOfEntriesToValidate := pc_MinNoOfEntriesToValidate p;
     pc_XBinContent := pc_XBinContent p; pc_YBinContent := pc_YBinContent p;
     pc_XBinError := pc_XBinError p; pc_YBinError := pc_YBinError p;
     pc_fills := pc_fills p ++ [(isX, harmonic, variableContainer, value)] |}.
Definition FillX := Fill_component true.
Definition FillY := Fill_component false.

(** Modelled from the spec: QnCorrectionsHistogramSparse, the diagnostic
    histogram; [Fill] adds the weight to the content of the bin of the event
    class variables. *)
Record QnCorrectionsHistogramSparse : Type := mkHistogramSparse {
  hs_GetBin : list F -> Z;
  hs_content : gmap Z F
}.

Definition GetBinContent_sparse (h : QnCorrectionsHistogramSparse) (bin : Z) : F :=
  default fzero (hs_content h !! bin).
Definition Fill_sparse (h : QnCorrectionsHistogramSparse)
    (variableContainer : list F) (weight : F) : QnCorrectionsHistogramSparse :=
  let bin := hs_GetBin h variableContainer in
  {| hs_GetBin := hs_GetBin h;
     hs_content := <[bin := (GetBinContent_sparse h bin + weight)%F]> (hs_content h) |}.

(** Modelled from the spec: QnCorrectionsProfileChannelizedIngress, the
    calibration store the gain equalization reads, keyed by event class and
    channel id. *)
Record QnCorrectionsProfileChannelizedIngress : Type := mkProfileIngress {
  pi_GetBin : list F -> Z -> Z;
  pi_GetBinContent : Z -> F;
  pi_GetBinError : Z -> F;
  pi_GetGrpBin : list F -> Z -> Z;
  pi_GetGrpBinContent : Z -> F
}.

(** Modelled from the spec: QnCorrectionsProfileChannelized, the store the
    gain equalization fills; the [Fill] calls in order. *)
Record QnCorrectionsProfileChannelized : Type := mkProfileChannelized {
  pch_fills : list (list F * Z * F)
}.
Definition Fill_channelized (p : QnCorrectionsProfileChannelized)
    (variableContainer : list F) (id : Z) (weight : F) :=
  {| pch_fills := pch_fills p ++ [(variableContainer, id, weight)] |}.

(** The detector configuration, as its constructor in
    QnCorrectionsDetectorConfigurationBase.cxx initializes it: the plain Qn
    vector, the current (corrected) Qn vector, the input data bank. *)
Record QnCorrectionsDetectorConfigurationBase : Type := mkConfiguration {
  fPlainQnVector : QnVector.QnCorrectionsQnVector F;
  fCorrectedQnVector : QnVector.QnCorrectionsQnVector F;
  fTempQnVector : QnVector.QnCorrectionsQnVector F;
  fDataVectorBank : list (QnCorrectionsDataVectorChannelized F)
}.

(** Modelled from the spec: [GetCurrentQnVector], [UpdateCurrentQnVector] and
    [GetInputDataBank] are declared in the header of the detector
    configuration, which is not among the sources.  A step reads the current
    Qn vector and replaces it with its own corrected output. *)
Definition GetCurrentQnVector (c : QnCorrectionsDetectorConfigurationBase) :=
  fCorrectedQnVector c.
Definition UpdateCurrentQnVector (c : QnCorrectionsDetectorConfigurationBase)
    (newQnVector : QnVector.QnCorrectionsQnVector F) :=
  {| fPlainQnVector := fPlainQnVector c; fCorrectedQnVector := newQnVector;
     fTempQnVector := fTempQnVector c; fDataVectorBank := fDataVectorBank c |}.
Definition GetInputDataBank (c : QnCorrectionsDetectorConfigurationBase) :=
  fDataVectorBank c.
Definition with_bank (c : QnCorrectionsDetectorConfigurationBase)
    (bank : list (QnCorrectionsDataVectorChannelized F)) :=
  {| fPlainQnVector := fPlainQnVector c; fCorrectedQnVector := fCorrectedQnVector c;
     fTempQnVector := fTempQnVector c; fDataVectorBank := bank |}.

(** Constructor of QnCorrectionsDetectorConfigurationBase.cxx. *)
Definition new_configuration (name : string) (nNoOfHarmonics : Z)
    (harmonicMap : option (list Z)) : outcome QnCorrectionsDetectorConfigurationBase :=
  match QnVector.new "plain" nNoOfHarmonics harmonicMap,
        QnVector.new "temp" nNoOfHarmonics harmonicMap with
  | Done plain, Done temp =>
      Done {| fPlainQnVector := plain; fCorrectedQnVector := plain;
              fTempQnVector := temp; fDataVectorBank := [] |}
  | _, _ => Fatal
  end.

End Collaborators.
Arguments QnCorrectionsProfileComponents F : clear implicits.
Arguments QnCorrectionsHistogramSparse F : clear implicits.
Arguments QnCorrectionsProfileChannelizedIngress F : clear implicits.
Arguments QnCorrectionsProfileChannelized F : clear implicits.
Arguments QnCorrectionsDetectorConfigurationBase F : clear implicits.

(** ** QnCorrectionsQnVectorRecentering.cxx *)

Module Recentering.
Import QnVector.
Section WithFloat.
Context {F : Type} `{!FloatOps F}.

Definition fDefaultMinNoOfEntries : Z := 2.
Definition szCorrectedQnVectorName : string := "rec".

(** The correction step: its state, the corrected Qn vector it owns, the
    input and calibration profiles, the optional histogram of not validated
    entries ([None] for NULL) and the options. *)
Record QnCorrectionsQnVectorRecentering : Type := mkRecentering {
  fState : QnCorrectionStepStatus;
  fCorrectedQnVector : QnCorrectionsQnVector F;
  fInputHistograms : QnCorrectionsProfileComponents F;
  fCalibrationHistograms : QnCorrectionsProfileComponents F;
  fQANotValidatedBin : option (QnCorrectionsHistogramSparse F);
  fApplyWidthEqualization : bool;
  fMinNoOfEntriesToValidate : Z
}.

Definition with_corrected (s : QnCorrectionsQnVectorRecentering)
    (q : QnCorrectionsQnVector F) : QnCorrectionsQnVectorRecentering :=
  {| fState := fState s; fCorrectedQnVector := q;
     fInputHistograms := fInputHistograms s;
     fCalibrationHistograms := fCalibrationHistograms s;
     fQANotValidatedBin := fQANotValidatedBin s;
     fApplyWidthEqualization := fApplyWidthEqualization s;
     fMinNoOfEntriesToValidate := fMinNoOfEntriesToValidate s |}.

Definition with_QA (s : QnCorrectionsQnVectorRecentering)
    (h : option (QnCorrectionsHistogramSparse F)) : QnCorrectionsQnVectorRecentering :=
  {| fState := fState s; fCorrectedQnVector := fCorrectedQnVector s;
     fInputHistograms := fInputHistograms s;
     fCalibrationHistograms := fCalibrationHistograms s;
     fQANotValidatedBin := h;
     fApplyWidthEqualization := fApplyWidthEqualization s;
     fMinNoOfEntriesToValidate := fMinNoOfEntriesToValidate s |}.

Definition with_calibration (s : QnCorrectionsQnVectorRecentering)
    (p : QnCorrectionsProfileComponents F) : QnCorrectionsQnVectorRecentering :=
  {| fState := fState s; fCorrectedQnVector := fCorrectedQnVector s;
     fInputHistograms := fInputHistograms s;
     fCalibrationHistograms := p;
     fQANotValidatedBin := fQANotValidatedBin s;
     fApplyWidthEqualization := fApplyWidthEqualization s;
     fMinNoOfEntriesToValidate := fMinNoOfEntriesToValidate s |}.

(** Creates the recentered Qn vector from the harmonics of the detector
    configuration (those of its Qn vectors). *)
Definition CreateSupportDataStructures (s : QnCorrectionsQnVectorRecentering)
    (c : QnCorrectionsDetectorConfigurationBase F)
  : outcome QnCorrectionsQnVectorRecentering :=
  let nNoOfHarmonics := GetNoOfHarmonics (fPlainQnVector c) in
  let harmonicsMap := GetHarmonicsMap (fPlainQnVector c) in
  match new szCorrectedQnVectorName nNoOfHarmonics (Some harmonicsMap) with
  | Fatal => Fatal
  | Done q => Done (with_corrected s q)
  end.

(** [AttachHistograms] of the profile is not among the sources: [found] is
    the profile attached to the inputs when the list holds it. *)
Definition AttachInput (s : QnCorrectionsQnVectorRecentering)
    (found : option (QnCorrectionsProfileComponents F))
  : QnCorrectionsQnVectorRecentering * bool :=
  match found with
  | Some p =>
      ({| fState := QCORRSTEP_applyCollect;
          fCorrectedQnVector := fCorrectedQnVector s;
          fInputHistograms := p;
          fCalibrationHistograms := fCalibrationHistograms s;
          fQANotValidatedBin := fQANotValidatedBin s;
          fApplyWidthEqualization := fApplyWidthEqualization s;
          fMinNoOfEntriesToValidate := fMinNoOfEntriesToValidate s |}, true)
  | None => (s, false)
  end.

(** The body of the loop over the harmonics of the current Qn vector. *)
Definition recenter (s : QnCorrectionsQnVectorRecentering)
    (current : QnCorrectionsQnVector F) (bin : Z)
    (harmonic : Z) (corrected : QnCorrectionsQnVector F) : QnCorrectionsQnVector F :=
  let widthX :=
    if fApplyWidthEqualization s
    then GetXBinError (fInputHistograms s) harmonic bin else fone in
  let widthY :=
    if fApplyWidthEqualization s
    then GetYBinError (fInputHistograms s) harmonic bin else fone in
  let corrected :=
    SetQx corrected harmonic
      ((Qx current harmonic - GetXBinContent (fInputHistograms s) harmonic bin) / widthX)%F in
  SetQy corrected harmonic
    ((Qy current harmonic - GetYBinContent (fInputHistograms s) harmonic bin) / widthY)%F.

(** Processes the correction step: the step and the detector configuration
    after the call and the value returned, or the fatal error of [Set]. *)
Definition ProcessCorrections (s : QnCorrectionsQnVectorRecentering)
    (c : QnCorrectionsDetectorConfigurationBase F) (variableContainer : list F)
  : outcome (QnCorrectionsQnVectorRecentering *
             QnCorrectionsDetectorConfigurationBase F * bool) :=
  match fState s with
  | QCORRSTEP_calibration =>
      (* we have not perform any correction yet *)
      Done (s, c, false)
  | QCORRSTEP_applyCollect
  | QCORRSTEP_apply =>
      if IsGoodQuality (GetCurrentQnVector c) then
        (* we get the properties of the current Qn vector but its name *)
        match Set_ (fCorrectedQnVector s) (GetCurrentQnVector c) false with
        | Fatal => Fatal
        | Done corrected =>
            (* let's check the correction histograms *)
            let bin := pc_GetBin (fInputHistograms s) variableContainer in
            if BinContentValidated (fInputHistograms s) bin then
              (* correction information validated *)
              let corrected :=
                for_each_harmonic (GetCurrentQnVector c)
                  (recenter s (GetCurrentQnVector c) bin) corrected in
              (* and update the current Qn vector *)
              Done (with_corrected s corrected, UpdateCurrentQnVector c corrected, true)
            else
              (* correction information not validated, we leave the Q vector untouched *)
              let qa :=
                match fQANotValidatedBin s with
                | Some h => Some (Fill_sparse h variableContainer fone)
                | None => None
                end in
              Done (with_QA (with_corrected s corrected) qa,
                    UpdateCurrentQnVector c corrected, true)
        end
      else
        (* not done! input vector with bad quality *)
        let corrected := SetGood (fCorrectedQnVector s) false in
        Done (with_corrected s corrected, UpdateCurrentQnVector c corrected, true)
  end.

(** The calibration profile after the Qn vector [q] has been collected. *)
Definition collect (p : QnCorrectionsProfileComponents F)
    (q : QnCorrectionsQnVector F) (variableContainer : list F) :=
  if IsGoodQuality q then
    for_each_harmonic q
      (fun harmonic p =>
         FillY (FillX p harmonic variableContainer (Qx q harmonic))
               harmonic variableContainer (Qy q harmonic)) p
  else p.

(** The calls [FillX] and [FillY] of one harmonic, as the profile logs
    them. *)
Definition fills_of (q : QnCorrectionsQnVector F) (variableContainer : list F)
    (harmonic : Z) : list (bool * Z * list F * F) :=
  [(true, harmonic, variableContainer, Qx q harmonic);
   (false, harmonic, variableContainer, Qy q harmonic)].

(** Processes the data collection; [inputQnVector] is the Qn vector
    [fInputQnVector] points to when the step is called. *)
Definition ProcessDataCollection (s : QnCorrectionsQnVectorRecentering)
    (inputQnVector : QnCorrectionsQnVector F) (variableContainer : list F)
  : QnCorrectionsQnVectorRecentering * bool :=
  match fState s with
  | QCORRSTEP_calibration =>
      (with_calibration s (collect (fCalibrationHistograms s) inputQnVector variableContainer),
       false)
  | QCORRSTEP_applyCollect =>
      (with_calibration s (collect (fCalibrationHistograms s) inputQnVector variableContainer),
       true)
  | QCORRSTEP_apply => (s, true)
  end.

(** Clean the correction to accept a new event. *)
Definition ClearCorrectionStep (s : QnCorrectionsQnVectorRecentering) :=
  with_corrected s (Reset (fCorrectedQnVector s)).

(** The corrected Qn vector of a step in calibration has bad quality: the
    constructor of the Qn vector and [ClearCorrectionStep] make it so and the
    step never sets it before it leaves the calibration state. *)
Definition calibration_inv (s : QnCorrectionsQnVectorRecentering) : Prop :=
  fState s = QCORRSTEP_calibration -> IsGoodQuality (fCorrectedQnVector s) = false.

End WithFloat.
Arguments QnCorrectionsQnVectorRecentering F : clear implicits.
End Recentering.

(** ** QnCorrectionsInputGainEqualization.cxx *)

Module InputGainEqualization.
Section WithFloat.
Context {F : Type} `{!FloatOps F}.

Inductive QnGainEqualizationMethod : Type :=
| QEQUAL_noEqualization
| QEQUAL_averageEqualization
| QEQUAL_widthEqualization.

(** The correction step; [fHardCodedWeights] is [None] for NULL. *)
Record QnCorrectionsInputGainEqualization : Type := mkGainEqualization {
  fState : QnCorrectionStepStatus;
  fInputHistograms : QnCorrectionsProfileChannelizedIngress F;
  fCalibrationHistograms : QnCorrectionsProfileChannelized F;
  fEqualizationMethod : QnGainEqualizationMethod;
  fA : F;
  fB : F;
  fUseChannelGroupsWeights : bool;
  fHardCodedWeights : option (list F)
}.

Definition with_calibration (s : QnCorrectionsInputGainEqualization)
    (p : QnCorrectionsProfileChannelized F) : QnCorrectionsInputGainEqualization :=
  {| fState := fState s; fInputHistograms := fInputHistograms s;
     fCalibrationHistograms := p;
     fEqualizationMethod := fEqualizationMethod s;
     fA := fA s; fB := fB s;
     fUseChannelGroupsWeights := fUseChannelGroupsWeights s;
     fHardCodedWeights := fHardCodedWeights s |}.

(** collect the data needed to further produce equalization parameters *)
Definition collect (s : QnCorrectionsInputGainEqualization)
    (bank : list (QnCorrectionsDataVectorChannelized F)) (variableContainer : list F)
  : QnCorrectionsInputGainEqualization :=
  with_calibration s
    (foldl (fun p dataVector =>
              Fill_channelized p variableContainer (GetId dataVector) (Weight dataVector))
           (fCalibrationHistograms s) bank).

(** let's handle the potential group weights usage *)
Definition groupweight (s : QnCorrectionsInputGainEqualization)
    (variableContainer : list F) (dataVector : QnCorrectionsDataVectorChannelized F) : F :=
  if fUseChannelGroupsWeights s then
    pi_GetGrpBinContent (fInputHistograms s)
      (pi_GetGrpBin (fInputHistograms s) variableContainer (GetId dataVector))
  else
    match fHardCodedWeights s with
    | Some weights => rd weights (GetId dataVector)
    | None => fone
    end.

Definition equalize_average (s : QnCorrectionsInputGainEqualization)
    (variableContainer : list F) (dataVector : QnCorrectionsDataVectorChannelized F) :=
  let average :=
    pi_GetBinContent (fInputHistograms s)
      (pi_GetBin (fInputHistograms s) variableContainer (GetId dataVector)) in
  let groupweight := groupweight s variableContainer dataVector in
  if (fMinimumSignificantValue <? average)%F then
    SetEqualizedWeight dataVector ((Weight dataVector / average) * groupweight)%F
  else
    SetEqualizedWeight dataVector fzero.

Definition equalize_width (s : QnCorrectionsInputGainEqualization)
    (variableContainer : list F) (dataVector : QnCorrectionsDataVectorChannelized F) :=
  let average :=
    pi_GetBinContent (fInputHistograms s)
      (pi_GetBin (fInputHistograms s) variableContainer (GetId dataVector)) in
  let width :=
    pi_GetBinError (fInputHistograms s)
      (pi_GetBin (fInputHistograms s) variableContainer (GetId dataVector)) in
  let groupweight := groupweight s variableContainer dataVector in
  if (fMinimumSignificantValue <? average)%F then
    SetEqualizedWeight dataVector
      ((fA s + fB s * (Weight dataVector - average) / width) * groupweight)%F
  else
    SetEqualizedWeight dataVector fzero.

(** store the equalized weights in the data vector bank according to
    equalization method *)
Definition apply (s : QnCorrectionsInputGainEqualization)
    (bank : list (QnCorrectionsDataVectorChannelized F)) (variableContainer : list F)
  : list (QnCorrectionsDataVectorChannelized F) :=
  match fEqualizationMethod s with
  | QEQUAL_noEqualization =>
      (fun dataVector => SetEqualizedWeight dataVector (Weight dataVector)) <$> bank
  | QEQUAL_averageEqualization => equalize_average s variableContainer <$> bank
  | QEQUAL_widthEqualization => equalize_width s variableContainer <$> bank
  end.

(** Processes the correction step on the input data bank of the detector
    configuration. *)
Definition Process (s : QnCorrectionsInputGainEqualization)
    (c : QnCorrectionsDetectorConfigurationBase F) (variableContainer : list F)
  : QnCorrectionsInputGainEqualization * QnCorrectionsDetectorConfigurationBase F * bool :=
  match fState s with
  | QCORRSTEP_calibration =>
      (collect s (GetInputDataBank c) variableContainer, c, false)
  | QCORRSTEP_applyCollect =>
      let s' := collect s (GetInputDataBank c) variableContainer in
      (s', with_bank c (apply s' (GetInputDataBank c) variableContainer), true)
  | QCORRSTEP_apply =>
      (s, with_bank c (apply s (GetInputDataBank c) variableContainer), true)
  end.

End WithFloat.
Arguments QnCorrectionsInputGainEqualization F : clear implicits.
End InputGainEqualization.

(** ** Concrete Q vectors, stores and steps over the primitive floats *)

Module Run.

Definition zeros : list float := replicate 16 0%float.

(** A Q vector of QnCorrectionsQnVector.cxx with harmonic 1, holding
    [(x, y)] there. *)
Definition vector (name : string) (x y : float) (good : bool)
  : QnVector.QnCorrectionsQnVector float :=
  {| QnVector.fName := name; QnVector.fTitle := name;
     QnVector.fQnX := wr zeros 1 x; QnVector.fQnY := wr zeros 1 y;
     QnVector.fHighestHarmonic := 1; QnVector.fHarmonicMask := 0x0002;
     QnVector.fGoodQuality := good |}.

(** The same with harmonics 1 and 2. *)
Definition vector12 (name : string) (x y : float) (good : bool)
  : QnVector.QnCorrectionsQnVector float :=
  {| QnVector.fName := name; QnVector.fTitle := name;
     QnVector.fQnX := wr zeros 1 x; QnVector.fQnY := wr zeros 1 y;
     QnVector.fHighestHarmonic := 2; QnVector.fHarmonicMask := 0x0006;
     QnVector.fGoodQuality := good |}.

Definition build (x y sumW : float) : QnVector.QnCorrectionsQnVectorBuild float :=
  {| QnVector.Qn := vector "build" x y true; QnVector.fSumW := sumW; QnVector.fN := 1 |}.

(** A Q vector of QnCorrectionsQnVectors.cxx with harmonic 1, holding
    [(x, y)] there, and one with harmonics 1 and 2. *)
Definition legacy_vector (x y : float) : QnVectors.QnCorrectionsQnVector float :=
  {| QnVectors.fQnX := wr zeros 1 x; QnVectors.fQnY := wr zeros 1 y;
     QnVectors.fHighestHarmonic := 1; QnVectors.fHarmonicMask := 0x0002 |}.

Definition legacy_vector12 (x y : float) : QnVectors.QnCorrectionsQnVector float :=
  {| QnVectors.fQnX := wr zeros 1 x; QnVectors.fQnY := wr zeros 1 y;
     QnVectors.fHighestHarmonic := 2; QnVectors.fHarmonicMask := 0x0006 |}.

Definition legacy_build (x y sumW : float) : QnVectors.QnCorrectionsQnVectorBuild float :=
  {| QnVectors.Qn := legacy_vector x y; QnVectors.fSumW := sumW; QnVectors.fN := 1 |}.

(** A calibration profile with one bin: [entries] entries, mean [(2, 2)],
    spread [(0.5, 0.25)], validated from 2 entries on. *)
Definition profile (entries : Z) : QnCorrectionsProfileComponents float :=
  {| pc_GetBin := fun _ => 0;
     pc_entries := fun _ => entries;
     pc_MinNoOfEntriesToValidate := Recentering.fDefaultMinNoOfEntries;
     pc_XBinContent := fun _ _ => 2%float;
     pc_YBinContent := fun _ _ => 2%float;
     pc_XBinError := fun _ _ => 0.5%float;
     pc_YBinError := fun _ _ => 0.25%float;
     pc_fills := [] |}.

(** An empty histogram of not validated entries. *)
Definition not_validated_histogram : QnCorrectionsHistogramSparse float :=
  {| hs_GetBin := fun _ => 0; hs_content := ∅ |}.

(** A recentering step whose corrected Qn vector is the cleared "rec"
    vector. *)
Definition recentering (state : QnCorrectionStepStatus) (entries : Z)
    (qa : option (QnCorrectionsHistogramSparse float)) (widthEqualization : bool)
  : Recentering.QnCorrectionsQnVectorRecentering float :=
  {| Recentering.fState := state;
     Recentering.fCorrectedQnVector := vector "rec" 0 0 false;
     Recentering.fInputHistograms := profile entries;
     Recentering.fCalibrationHistograms := profile 0;
     Recentering.fQANotValidatedBin := qa;
     Recentering.fApplyWidthEqualization := widthEqualization;
     Recentering.fMinNoOfEntriesToValidate := Recentering.fDefaultMinNoOfEntries |}.

(** One data vector of channel 0 with raw weight [weight]. *)
Definition bank (weight : float) : list (QnCorrectionsDataVectorChannelized float) :=
  [ {| fPhi := 0%float; fId := 0; fWeight := weight; fEqualizedWeight := weight |} ].

(** A detector configuration whose current Qn vector holds [(x, y)]. *)
Definition configuration (x y : float) (good : bool) (weight : float)
  : QnCorrectionsDetectorConfigurationBase float :=
  {| fPlainQnVector := vector "plain" x y good;
     fCorrectedQnVector := vector "plain" x y good;
     fTempQnVector := vector "temp" 0 0 false;
     fDataVectorBank := bank weight |}.

(** Input histograms of the gain equalization with channel average
    [average] in every bin. *)
Definition ingress (average : float) : QnCorrectionsProfileChannelizedIngress float :=
  {| pi_GetBin := fun _ id => id;
     pi_GetBinContent := fun _ => average;
     pi_GetBinError := fun _ => 1%float;
     pi_GetGrpBin := fun _ id => id;
     pi_GetGrpBinContent := fun _ => 1%float |}.

(** A gain equalization step in average mode, no group weights. *)
Definition gain_equalization (state : QnCorrectionStepStatus) (average : float)
  : InputGainEqualization.QnCorrectionsInputGainEqualization float :=
  {| InputGainEqualization.fState := state;
     InputGainEqualization.fInputHistograms := ingress average;
     InputGainEqualization.fCalibrationHistograms := {| pch_fills := [] |};
     InputGainEqualization.fEqualizationMethod :=
       InputGainEqualization.QEQUAL_averageEqualization;
     InputGainEqualization.fA := 0%float;
     InputGainEqualization.fB := 1%float;
     InputGainEqualization.fUseChannelGroupsWeights := false;
     InputGainEqualization.fHardCodedWeights := None |}.

(** The same step with another equalization method and the parameters
    A = 1 and B = 2 of the width equalization. *)
Definition gain_equalization_method (method : InputGainEqualization.QnGainEqualizationMethod)
    (state : QnCorrectionStepStatus) (average : float)
  : InputGainEqualization.QnCorrectionsInputGainEqualization float :=
  {| InputGainEqualization.fState := state;
     InputGainEqualization.fInputHistograms := ingress average;
     InputGainEqualization.fCalibrationHistograms := {| pch_fills := [] |};
     InputGainEqualization.fEqualizationMethod := method;
     InputGainEqualization.fA := 1%float;
     InputGainEqualization.fB := 2%float;
     InputGainEqualization.fUseChannelGroupsWeights := false;
     InputGainEqualization.fHardCodedWeights := None |}.

End Run.

(** * Properties *)

Section ArrayFacts.
Context {A : Type} `{!Inhabited A}.

Lemma length_wr (a : list A) h v : length (wr a h v) = length a.
Proof. apply length_insert. Qed.

Lemma rd_wr (a : list A) h k v :
  0 <= h -> 0 <= k -> (Z.to_nat h < length a)%nat ->
  rd (wr a h v) k = if decide (k = h) then v else rd a k.
Proof.
  intros Hh Hk Hlen. unfold rd, wr. case_decide as Hkh.
  - subst k. by apply list_lookup_total_insert_eq.
  - apply list_lookup_total_insert_ne. lia.
Qed.

Lemma rd_wr_eq (a : list A) h v :
  0 <= h -> (Z.to_nat h < length a)%nat -> rd (wr a h v) h = v.
Proof. intros. rewrite rd_wr by lia. by rewrite decide_True. Qed.
End ArrayFacts.

(** A loop over harmonics whose body, at harmonic [h], rewrites the two
    components stored at index [h] from the components that are there, and
    nothing else that the body reads. *)
Section PointwiseLoop.
Context {F : Type} `{!Inhabited F} {A : Type}.
Variables (X Y : A -> list F) (step : A -> Z -> A) (Inv : A -> Prop).
Variables (fx fy : Z -> F -> F -> F) (bound : Z).

Hypothesis step_inv : forall a h, Inv a -> Inv (step a h).
Hypothesis step_X : forall a h k, Inv a -> 0 <= h < bound -> 0 <= k ->
  rd (X (step a h)) k =
  if decide (k = h) then fx h (rd (X a) h) (rd (Y a) h) else rd (X a) k.
Hypothesis step_Y : forall a h k, Inv a -> 0 <= h < bound -> 0 <= k ->
  rd (Y (step a h)) k =
  if decide (k = h) then fy h (rd (X a) h) (rd (Y a) h) else rd (Y a) k.

Lemma foldl_inv l a : Inv a -> Inv (foldl step a l).
Proof. revert a. induction l as [|h l IH]; simpl; auto. Qed.

Lemma foldl_pointwise l : forall a,
  Inv a -> NoDup l -> (forall h, h ∈ l -> 0 <= h < bound) ->
  forall k, 0 <= k ->
    rd (X (foldl step a l)) k =
      (if decide (k ∈ l) then fx k (rd (X a) k) (rd (Y a) k) else rd (X a) k) /\
    rd (Y (foldl step a l)) k =
      (if decide (k ∈ l) then fy k (rd (X a) k) (rd (Y a) k) else rd (Y a) k).
Proof.
  induction l as [|h l IH]; intros a Ha Hnd Hin k Hk; simpl.
  - split; destruct (decide (k ∈ [])) as [Hk0|_]; try done; by apply elem_of_nil in Hk0.
  - apply NoDup_cons in Hnd as [Hh Hnd].
    assert (Hhb : 0 <= h < bound) by (apply Hin; left).
    destruct (IH (step a h)) with (k := k) as [IHx IHy]; auto.
    { intros h' Hh'. apply Hin. by right. }
    rewrite IHx, IHy, !step_X, !step_Y by auto.
    destruct (decide (k = h)) as [->|Hne].
    + destruct (decide (h ∈ l)); [done|].
      destruct (decide (h ∈ h :: l)) as [|Hn]; [done|].
      exfalso. apply Hn. left.
    + destruct (decide (k ∈ l)) as [Hkl|Hkl];
        destruct (decide (k ∈ h :: l)) as [Hkl'|Hkl']; try done.
      * exfalso. apply Hkl'. by right.
      * apply elem_of_cons in Hkl' as [?|?]; done.
Qed.
End PointwiseLoop.

(** ** The harmonic masks *)

Lemma harmonicNumberMask_bit h : 1 <= h <= 15 -> rd harmonicNumberMask h = 2 ^ h.
Proof.
  intros Hh.
  assert (Hc : h = 1 \/ h = 2 \/ h = 3 \/ h = 4 \/ h = 5 \/ h = 6 \/ h = 7 \/ h = 8 \/
               h = 9 \/ h = 10 \/ h = 11 \/ h = 12 \/ h = 13 \/ h = 14 \/ h = 15) by lia.
  repeat (destruct Hc as [->|Hc]; [reflexivity|]). by subst.
Qed.

Lemma land_lor_absorb m b : Z.land (Z.lor m b) b = b.
Proof.
  apply Z.bits_inj'. intros n Hn. rewrite Z.land_spec, Z.lor_spec.
  destruct (Z.testbit m n), (Z.testbit b n); reflexivity.
Qed.

Lemma land_1_odd m : Z.land m 1 = Z.b2z (Z.odd m).
Proof.
  change 1 with (Z.ones 1). rewrite Z.land_ones by lia.
  change (2 ^ 1) with 2. rewrite Zmod_odd. by destruct (Z.odd m).
Qed.

Lemma harmonicNumberMask_even h : 0 <= h <= 15 -> Z.odd (rd harmonicNumberMask h) = false.
Proof.
  intros Hh.
  assert (Hc : h = 0 \/ h = 1 \/ h = 2 \/ h = 3 \/ h = 4 \/ h = 5 \/ h = 6 \/ h = 7 \/ h = 8 \/
               h = 9 \/ h = 10 \/ h = 11 \/ h = 12 \/ h = 13 \/ h = 14 \/ h = 15) by lia.
  repeat (destruct Hc as [->|Hc]; [reflexivity|]). by subst.
Qed.

Lemma odd_lor a b : Z.odd (Z.lor a b) = Z.odd a || Z.odd b.
Proof. by rewrite <- !Z.bit0_odd, Z.lor_spec. Qed.

Ltac split_inv H := destruct H as (? & ? & ? & ? & ? & ? & ?).

Ltac solve_body_inv unf :=
  let Ha := fresh "Ha" in
  intros Ha; unf; unfold QnVector.with_X, QnVector.with_Y;
  match goal with |- context [QnVector.mask_condition ?a ?h] => destruct (QnVector.mask_condition a h) end;
  [split_inv Ha; repeat split; simpl; rewrite ?length_wr; done | done].

(** ** The Q vectors of QnCorrectionsQnVector.cxx *)

Section QnVectorFacts.
Import QnVector.
Context {F : Type} `{!FloatOps F}.
Implicit Types (q a : QnCorrectionsQnVector F) (b : QnCorrectionsQnVectorBuild F).

Lemma loop_inv_refl q : wf q -> loop_inv q q.
Proof. intros (? & ? & ?). by repeat split. Qed.

Lemma mask_condition_inv q a h : loop_inv q a -> mask_condition a h = mask_condition q h.
Proof. intros (_ & _ & _ & Hm & _). unfold mask_condition. by rewrite Hm. Qed.

Lemma active_spec q k :
  active q k = true <-> k ∈ seqZ 1 (fHighestHarmonic q) /\ mask_condition q k = true.
Proof.
  unfold active. rewrite elem_of_seqZ, !andb_true_iff, !Z.leb_le. intuition lia.
Qed.

Lemma active_range q k : wf q -> active q k = true -> 1 <= k < 16.
Proof.
  intros (_ & _ & Hh) [Hk _]%active_spec. apply elem_of_seqZ in Hk.
  unfold MAXHARMONICNUMBERSUPPORTED in Hh. lia.
Qed.

(** A loop [for (h = 1; h < fHighestHarmonic + 1; h++) if (condition) ...]
    whose body stores [gx x y] and [gy x y] over the components [(x, y)] of
    harmonic [h]. *)
Lemma harmonics_loop (gx gy : F -> F -> F) (body : QnCorrectionsQnVector F -> Z -> QnCorrectionsQnVector F) q :
  (forall a h, loop_inv q a -> loop_inv q (body a h)) ->
  (forall a h k, loop_inv q a -> 0 <= h < 16 -> 0 <= k ->
     rd (fQnX (body a h)) k =
     if decide (k = h)
     then (if mask_condition q h then gx (rd (fQnX a) h) (rd (fQnY a) h) else rd (fQnX a) h)
     else rd (fQnX a) k) ->
  (forall a h k, loop_inv q a -> 0 <= h < 16 -> 0 <= k ->
     rd (fQnY (body a h)) k =
     if decide (k = h)
     then (if mask_condition q h then gy (rd (fQnX a) h) (rd (fQnY a) h) else rd (fQnY a) h)
     else rd (fQnY a) k) ->
  wf q ->
  let r := foldl body q (seqZ 1 (fHighestHarmonic q)) in
  loop_inv q r /\
  forall k, 0 <= k ->
    Qx r k = (if active q k then gx (Qx q k) (Qy q k) else Qx q k) /\
    Qy r k = (if active q k then gy (Qx q k) (Qy q k) else Qy q k).
Proof.
  intros Hinv HX HY Hwf r. split.
  { apply (foldl_inv body (loop_inv q)); auto using loop_inv_refl. }
  intros k Hk.
  destruct (foldl_pointwise fQnX fQnY body (loop_inv q)
              (fun h x y => if mask_condition q h then gx x y else x)
              (fun h x y => if mask_condition q h then gy x y else y)
              16 Hinv HX HY (seqZ 1 (fHighestHarmonic q)) q) with (k := k)
    as [Hx Hy]; auto using loop_inv_refl, NoDup_seqZ.
  { intros h Hh%elem_of_seqZ. destruct Hwf as (_ & _ & Hwf).
    unfold MAXHARMONICNUMBERSUPPORTED in Hwf. lia. }
  unfold Qx, Qy. fold r in Hx, Hy. rewrite Hx, Hy.
  destruct (active q k) eqn:Hact.
  - apply active_spec in Hact as [Hin Hc].
    rewrite !decide_True by done. by rewrite Hc.
  - destruct (decide (k ∈ seqZ 1 (fHighestHarmonic q))) as [Hin|Hin]; [|done].
    destruct (mask_condition q k) eqn:Hc; [|done].
    assert (active q k = true) by (apply active_spec; done). congruence.
Qed.

Ltac solve_body_at unf q :=
  let Ha := fresh "Ha" in
  intros Ha ? ?; rewrite <- (mask_condition_inv q _ _ Ha);
  unf; unfold QnVector.with_X, QnVector.with_Y;
  match goal with |- context [QnVector.mask_condition ?a ?h] => destruct (QnVector.mask_condition a h) end;
  simpl; [split_inv Ha; rewrite ?rd_wr by lia | ]; case_decide; subst; done.

(** *** NormalizeQoverM *)

Lemma NormalizeQoverM_loop sumW q :
  wf q ->
  let r := foldl (NormalizeQoverM_body sumW) q (seqZ 1 (fHighestHarmonic q)) in
  loop_inv q r /\
  forall k, 0 <= k ->
    Qx r k = (if active q k then Qx q k / sumW else Qx q k)%F /\
    Qy r k = (if active q k then Qy q k / sumW else Qy q k)%F.
Proof.
  apply (harmonics_loop (fun x _ => x / sumW)%F (fun _ y => y / sumW)%F).
  - intros a h. solve_body_inv ltac:(unfold NormalizeQoverM_body).
  - intros a h k. solve_body_at ltac:(unfold NormalizeQoverM_body) q.
  - intros a h k. solve_body_at ltac:(unfold NormalizeQoverM_body) q.
Qed.

(** X1.  [NormalizeQoverM] of QnCorrectionsQnVector.cxx: below 1e-6 every
    component is kept; otherwise the components of each active harmonic are
    divided once by the sum of weights and the others are kept.  The sum of
    weights, the number of entries and the structure are kept. *)
Theorem NormalizeQoverM_spec b :
  wf (Qn b) ->
  let r := NormalizeQoverM b in
  fSumW r = fSumW b /\ fN r = fN b /\ loop_inv (Qn b) (Qn r) /\
  forall k, 0 <= k ->
    Qx (Qn r) k =
      (if fSumW b <? fMinimumSignificantValue then Qx (Qn b) k
       else if active (Qn b) k then Qx (Qn b) k / fSumW b else Qx (Qn b) k)%F /\
    Qy (Qn r) k =
      (if fSumW b <? fMinimumSignificantValue then Qy (Qn b) k
       else if active (Qn b) k then Qy (Qn b) k / fSumW b else Qy (Qn b) k)%F.
Proof.
  intros Hwf. unfold NormalizeQoverM.
  destruct (fSumW b <? fMinimumSignificantValue)%F; simpl.
  - repeat split; auto using loop_inv_refl; apply Hwf.
  - destruct (NormalizeQoverM_loop (fSumW b) (Qn b) Hwf) as [Hinv Hk]. auto.
Qed.

(** *** NormalizeQoverSquareRootOfM *)

Lemma NormalizeQoverSquareRootOfM_loop sumW q :
  wf q ->
  let r := foldl (NormalizeQoverSquareRootOfM_body sumW) q (seqZ 1 (fHighestHarmonic q)) in
  loop_inv q r /\
  forall k, 0 <= k ->
    Qx r k = (if active q k then Qx q k + Qx q k / fsqrt sumW else Qx q k)%F /\
    Qy r k = (if active q k then Qy q k + Qy q k / fsqrt sumW else Qy q k)%F.
Proof.
  apply (harmonics_loop (fun x _ => x + x / fsqrt sumW)%F (fun _ y => y + y / fsqrt sumW)%F).
  - intros a h. solve_body_inv ltac:(unfold NormalizeQoverSquareRootOfM_body).
  - intros a h k. solve_body_at ltac:(unfold NormalizeQoverSquareRootOfM_body) q.
  - intros a h k. solve_body_at ltac:(unfold NormalizeQoverSquareRootOfM_body) q.
Qed.

(** X4.  [NormalizeQoverSquareRootOfM] of QnCorrectionsQnVector.cxx: below 1e-6
    every component is kept; otherwise each active harmonic gets its
    component plus the component over the square root of the sum of weights
    ([+=] in the source). *)
Theorem NormalizeQoverSquareRootOfM_spec b :
  wf (Qn b) ->
  let r := NormalizeQoverSquareRootOfM b in
  fSumW r = fSumW b /\ fN r = fN b /\ loop_inv (Qn b) (Qn r) /\
  forall k, 0 <= k ->
    Qx (Qn r) k =
      (if fSumW b <? fMinimumSignificantValue then Qx (Qn b) k
       else if active (Qn b) k then Qx (Qn b) k + Qx (Qn b) k / fsqrt (fSumW b)
       else Qx (Qn b) k)%F /\
    Qy (Qn r) k =
      (if fSumW b <? fMinimumSignificantValue then Qy (Qn b) k
       else if active (Qn b) k then Qy (Qn b) k + Qy (Qn b) k / fsqrt (fSumW b)
       else Qy (Qn b) k)%F.
Proof.
  intros Hwf. unfold NormalizeQoverSquareRootOfM.
  destruct (fSumW b <? fMinimumSignificantValue)%F; simpl.
  - repeat split; auto using loop_inv_refl; apply Hwf.
  - destruct (NormalizeQoverSquareRootOfM_loop (fSumW b) (Qn b) Hwf) as [Hinv Hk]. auto.
Qed.

(** *** Normalize *)

(** X3.  [Normalize] of QnCorrectionsQnVector.cxx: at each active harmonic the X
    component becomes [QxNorm], and the Y component is divided by the length
    of the vector whose X component has already been normalized. *)
Theorem Normalize_spec q :
  wf q ->
  loop_inv q (Normalize q) /\
  forall k, 0 <= k ->
    Qx (Normalize q) k = (if active q k then QxNorm q k else Qx q k) /\
    Qy (Normalize q) k =
      (if active q k
       then Qy q k / fsqrt (QxNorm q k * QxNorm q k + Qy q k * Qy q k)
       else Qy q k)%F.
Proof.
  apply (harmonics_loop
           (fun x y => x / fsqrt (x * x + y * y))%F
           (fun x y => y / fsqrt ((x / fsqrt (x * x + y * y)) * (x / fsqrt (x * x + y * y))
                                  + y * y))%F).
  - intros a h. solve_body_inv ltac:(unfold Normalize_body).
  - intros a h k.
    solve_body_at ltac:(unfold Normalize_body, QxNorm, QyNorm, Length, Qx, Qy; simpl) q.
  - intros a h k Ha ? ?. rewrite <- (mask_condition_inv q _ _ Ha).
    unfold Normalize_body, QxNorm, QyNorm, Length, Qx, Qy, with_X, with_Y.
    destruct (mask_condition a h); simpl.
    + split_inv Ha. rewrite (rd_wr_eq (fQnX a)) by lia.
      rewrite rd_wr by lia. by case_decide.
    + by case_decide; subst.
Qed.

(** *** ActivateHarmonic and Set *)

Lemma ActivateHarmonic_fatal q h :
  ActivateHarmonic q h = Fatal <-> MAXHARMONICNUMBERSUPPORTED < h.
Proof.
  unfold ActivateHarmonic.
  destruct (Z.ltb_spec MAXHARMONICNUMBERSUPPORTED h) as [Hlt|Hge]; [done|].
  destruct (fHighestHarmonic q <? h); [|destruct (mask_condition q h)];
    split; (done || lia).
Qed.

Lemma ActivateHarmonic_active q h :
  h <= MAXHARMONICNUMBERSUPPORTED -> active q h = true -> ActivateHarmonic q h = Done q.
Proof.
  intros Hh [Hin Hc]%active_spec. apply elem_of_seqZ in Hin.
  unfold ActivateHarmonic.
  destruct (Z.ltb_spec MAXHARMONICNUMBERSUPPORTED h); [lia|].
  destruct (Z.ltb_spec (fHighestHarmonic q) h); [lia|]. by rewrite Hc.
Qed.

Lemma activate_spec q highest h :
  wf q -> 1 <= h <= MAXHARMONICNUMBERSUPPORTED -> h <= highest <= MAXHARMONICNUMBERSUPPORTED ->
  let q' := activate q highest h in
  wf q' /\ fHarmonicMask q' = Z.lor (fHarmonicMask q) (2 ^ h) /\
  active q' h = true /\ Qx q' h = fzero /\ Qy q' h = fzero /\
  fGoodQuality q' = fGoodQuality q /\
  forall k, 0 <= k -> k <> h -> Qx q' k = Qx q k /\ Qy q' k = Qy q k.
Proof.
  intros (Hx & Hy & Hh) Hr Hhi q'. unfold MAXHARMONICNUMBERSUPPORTED in *.
  assert (Hlx : (Z.to_nat h < length (fQnX q))%nat) by lia.
  assert (Hly : (Z.to_nat h < length (fQnY q))%nat) by lia.
  subst q'. unfold wf, active, mask_condition, Qx, Qy, activate, MAXHARMONICNUMBERSUPPORTED.
  cbn [fQnX fQnY fHighestHarmonic fHarmonicMask fGoodQuality].
  rewrite !length_wr, land_lor_absorb, Z.eqb_refl, andb_true_r, andb_true_iff, !Z.leb_le.
  rewrite harmonicNumberMask_bit, !rd_wr_eq by lia.
  split_and!; try done; try lia.
  intros k Hk Hne. rewrite !rd_wr by lia. by rewrite !decide_False.
Qed.

Lemma ActivateHarmonic_inactive q h :
  wf q -> 1 <= h <= MAXHARMONICNUMBERSUPPORTED -> active q h = false ->
  exists q', ActivateHarmonic q h = Done q' /\
    wf q' /\ fHarmonicMask q' = Z.lor (fHarmonicMask q) (2 ^ h) /\
    active q' h = true /\ Qx q' h = fzero /\ Qy q' h = fzero /\
    fGoodQuality q' = fGoodQuality q /\
    forall k, 0 <= k -> k <> h -> Qx q' k = Qx q k /\ Qy q' k = Qy q k.
Proof.
  intros Hwf Hr Hact. unfold ActivateHarmonic.
  destruct (Z.ltb_spec MAXHARMONICNUMBERSUPPORTED h); [lia|].
  destruct (Z.ltb_spec (fHighestHarmonic q) h) as [Hlt|Hge].
  - eexists; split; [done|]. apply activate_spec; auto; lia.
  - destruct (mask_condition q h) eqn:Hc.
    + assert (active q h = true); [|congruence].
      apply active_spec. rewrite elem_of_seqZ. split; [lia|done].
    + eexists; split; [done|]. apply activate_spec; auto.
      destruct Hwf as (_ & _ & ?). lia.
Qed.

(** X2.  [ActivateHarmonic] of QnCorrectionsQnVector.cxx: fatal exactly above
    the maximum harmonic supported; a no-op on an active harmonic; on a
    harmonic that is not active it sets the bit of the mask and stores zero
    in both components, and keeps the other components and the quality. *)
Theorem ActivateHarmonic_spec q h :
  (ActivateHarmonic q h = Fatal <-> MAXHARMONICNUMBERSUPPORTED < h) /\
  (h <= MAXHARMONICNUMBERSUPPORTED -> active q h = true ->
     ActivateHarmonic q h = Done q) /\
  (wf q -> 1 <= h <= MAXHARMONICNUMBERSUPPORTED -> active q h = false ->
     exists q', ActivateHarmonic q h = Done q' /\
       wf q' /\ fHarmonicMask q' = Z.lor (fHarmonicMask q) (2 ^ h) /\
       active q' h = true /\ Qx q' h = fzero /\ Qy q' h = fzero /\
       fGoodQuality q' = fGoodQuality q /\
       forall k, 0 <= k -> k <> h -> Qx q' k = Qx q k /\ Qy q' k = Qy q k).
Proof.
  split; [apply ActivateHarmonic_fatal|].
  split; [apply ActivateHarmonic_active|apply ActivateHarmonic_inactive].
Qed.

Lemma Set_fatal q other changename :
  Set_ q other changename = Fatal <-> ~ same_structure q other.
Proof.
  unfold Set_, same_structure.
  destruct (Z.eqb_spec (fHighestHarmonic q) (fHighestHarmonic other));
    destruct (Z.eqb_spec (fHarmonicMask q) (fHarmonicMask other)); simpl;
    split; try done; try tauto; intros []; done.
Qed.

Lemma Set_done q other changename :
  same_structure q other ->
  exists r, Set_ q other changename = Done r /\
    fQnX r = fQnX other /\ fQnY r = fQnY other /\
    fGoodQuality r = fGoodQuality other /\
    fHighestHarmonic r = fHighestHarmonic q /\ fHarmonicMask r = fHarmonicMask q /\
    fName r = (if changename then fName other else fName q) /\
    fTitle r = (if changename then fTitle other else fTitle q).
Proof.
  intros [Hh Hm]. unfold Set_. rewrite Hh, Hm, !Z.eqb_refl. simpl.
  eexists; split; [done|]. by repeat split.
Qed.

(** *** The loop over [GetFirstHarmonic] and [GetNextHarmonic] *)

Lemma while_harmonic_scan {A : Type} q (body : Z -> A -> A) :
  forall (n : nat) (s : Z) (variant : nat) (a : A),
    1 <= s -> s + Z.of_nat n = fHighestHarmonic q + 1 -> (n < variant)%nat ->
    while_harmonic variant q body (scan (mask_condition q) s n) a =
    foldl (fun (acc : A) h => body h acc) a
          (filter (fun h => mask_condition q h = true) (seqZ s (Z.of_nat n))).
Proof.
  induction n as [|n IH]; intros s variant a Hs Hn Hv.
  - destruct variant as [|v]; [lia|]. reflexivity.
  - rewrite seqZ_cons by lia. cbn [scan].
    replace (Z.pred (Z.of_nat (S n))) with (Z.of_nat n) by lia.
    replace (Z.succ s) with (s + 1) by lia.
    destruct (mask_condition q s) eqn:Hc.
    + rewrite filter_cons_True by done. destruct variant as [|v]; [lia|].
      cbn [while_harmonic foldl]. destruct (Z.eqb_spec s (-1)) as [|_]; [lia|].
      unfold GetNextHarmonic.
      replace (Z.to_nat (fHighestHarmonic q - s)) with n by lia.
      apply IH; lia.
    + rewrite filter_cons_False by (by rewrite Hc). apply IH; lia.
Qed.

(** The loop runs its body once for each active harmonic, in ascending
    order, and ends on the sentinel. *)
Lemma for_each_harmonic_foldl {A : Type} q (body : Z -> A -> A) (a : A) :
  for_each_harmonic q body a = foldl (fun (acc : A) h => body h acc) a (harmonics q).
Proof.
  unfold for_each_harmonic, GetFirstHarmonic, harmonics.
  destruct (Z.le_gt_cases 0 (fHighestHarmonic q)) as [Hpos|Hneg].
  - rewrite <- (Z2Nat.id (fHighestHarmonic q)) at 3 by done.
    apply while_harmonic_scan; lia.
  - rewrite seqZ_nil by lia. by replace (Z.to_nat (fHighestHarmonic q)) with 0%nat by lia.
Qed.

Lemma elem_of_harmonics q h : h ∈ harmonics q <-> active q h = true.
Proof. unfold harmonics. rewrite list_elem_of_filter, active_spec. tauto. Qed.

Lemma NoDup_harmonics q : NoDup (harmonics q).
Proof. apply NoDup_filter, NoDup_seqZ. Qed.

End QnVectorFacts.

(** ** The Q vectors of QnCorrectionsQnVectors.cxx *)

Section QnVectorsFacts.
Import QnVectors.
Context {F : Type} `{!FloatOps F}.
Implicit Types (q : QnCorrectionsQnVector F) (b : QnCorrectionsQnVectorBuild F).

Lemma foldl_fixed {A B} (f : A -> B -> A) (a : A) (l : list B) :
  (forall x, f a x = a) -> foldl f a l = a.
Proof. intros Hf. induction l as [|x l IH]; simpl; [done|]. by rewrite Hf. Qed.

(** The condition of this file does not depend on the harmonic: it tests
    bit 0 of the mask. *)
Lemma legacy_mask_condition q h : mask_condition q h = Z.odd (fHarmonicMask q).
Proof.
  unfold mask_condition. rewrite Z.eqb_refl. change (Z.b2z true) with 1.
  rewrite land_1_odd. by destruct (Z.odd (fHarmonicMask q)).
Qed.

(** No harmonic mask has bit 0: the constructors and [ActivateHarmonic] keep
    the mask even. *)
Lemma legacy_default_even : Z.odd (fHarmonicMask (default (F := F))) = false.
Proof. reflexivity. Qed.

Lemma legacy_new_even n q :
  new n None = Done q -> Z.odd (fHarmonicMask q) = false.
Proof.
  unfold new. destruct (Z.ltb_spec nMaxHarmonicNumberSupported n) as [|Hn]; [done|].
  intros [= <-]. cbn [fHarmonicMask].
  unfold nMaxHarmonicNumberSupported in Hn.
  destruct (Z.le_gt_cases n 0) as [Hle|Hpos]; [by rewrite seqZ_nil|].
  rewrite <- (Z2Nat.id n) by lia.
  assert (Hk : (Z.to_nat n <= 15)%nat) by lia.
  set (step := fun '(mask, currentHarmonic) (h : Z) =>
                 (Z.lor mask (rd harmonicNumberMask (currentHarmonic + 1)),
                  currentHarmonic + 1)).
  assert (Hgen : forall k : nat, (k <= 15)%nat ->
            Z.odd (foldl step (0, 0) (seqZ 0 (Z.of_nat k))).1 = false /\
            (foldl step (0, 0) (seqZ 0 (Z.of_nat k))).2 = Z.of_nat k).
  { induction k as [|k IH]; intros Hk'; [done|].
    rewrite seqZ_S, foldl_app. destruct IH as [IH1 IH2]; [lia|].
    destruct (foldl step (0, 0) (seqZ 0 (Z.of_nat k))) as [mask cur]. simpl in *.
    subst cur. rewrite odd_lor, IH1, harmonicNumberMask_even by lia. split; [done|lia]. }
  by apply Hgen.
Qed.

Lemma legacy_ActivateHarmonic_even q h q' :
  0 <= h -> Z.odd (fHarmonicMask q) = false ->
  ActivateHarmonic q h = Done q' -> Z.odd (fHarmonicMask q') = false.
Proof.
  intros Hh Hq. unfold ActivateHarmonic.
  destruct (Z.ltb_spec nMaxHarmonicNumberSupported h) as [|Hle]; [done|].
  unfold nMaxHarmonicNumberSupported in Hle.
  destruct (fHighestHarmonic q <? h); [|destruct (mask_condition q h)];
    intros [= <-]; cbn [fHarmonicMask]; try done;
    by rewrite odd_lor, Hq, harmonicNumberMask_even by lia.
Qed.

(** With an even mask the loops over the harmonics change nothing. *)
Lemma legacy_Normalize_even q : Z.odd (fHarmonicMask q) = false -> Normalize q = q.
Proof.
  intros Hq. apply foldl_fixed. intros h. unfold Normalize_body.
  by rewrite legacy_mask_condition, Hq.
Qed.

(** X5.  [NormalizeQoverM] of QnCorrectionsQnVectors.cxx changes nothing on a
    build Q vector whose mask is even, whatever its sum of weights. *)
Theorem legacy_NormalizeQoverM_even b :
  Z.odd (fHarmonicMask (Qn b)) = false -> NormalizeQoverM b = b.
Proof.
  intros Hq. unfold NormalizeQoverM. destruct (fSumW b <? fMinimumSignificantValue)%F; [|done].
  rewrite foldl_fixed; [by destruct b|]. intros h. unfold NormalizeQoverM_body.
  by rewrite legacy_mask_condition, Hq.
Qed.

Lemma legacy_NormalizeQoverSquareRootOfM_even b :
  Z.odd (fHarmonicMask (Qn b)) = false -> NormalizeQoverSquareRootOfM b = b.
Proof.
  intros Hq. unfold NormalizeQoverSquareRootOfM.
  destruct (fSumW b <? fMinimumSignificantValue)%F; [|done].
  rewrite foldl_fixed; [by destruct b|]. intros h.
  unfold NormalizeQoverSquareRootOfM_body. by rewrite legacy_mask_condition, Hq.
Qed.

(** [ActivateHarmonic] on a harmonic within the range resets its components,
    active or not. *)
Lemma legacy_ActivateHarmonic_resets q h :
  wf q -> Z.odd (fHarmonicMask q) = false -> 0 <= h <= nMaxHarmonicNumberSupported ->
  exists q', ActivateHarmonic q h = Done q' /\ Qx q' h = fzero /\ Qy q' h = fzero.
Proof.
  intros (Hx & Hy & _) Hq Hh. unfold ActivateHarmonic, nMaxHarmonicNumberSupported in *.
  destruct (Z.ltb_spec 15 h); [lia|]. rewrite legacy_mask_condition, Hq.
  destruct (fHighestHarmonic q <? h); eexists; (split; [done|]);
    unfold Qx, Qy; cbn [fQnX fQnY]; rewrite !rd_wr_eq by lia; done.
Qed.

(** [Set] never fails and takes the structure of the other vector. *)
Lemma legacy_Set_done q other : Set_ q other = Done other.
Proof. unfold Set_. by destruct other. Qed.

End QnVectorsFacts.

(** ** The recentering step *)

Section RecenteringFacts.
Import QnVector Recentering.
Context {F : Type} `{!FloatOps F}.
Implicit Types (s : QnCorrectionsQnVectorRecentering F)
  (c : QnCorrectionsDetectorConfigurationBase F) (vc : list F).

Lemma recenter_inv s current bin h corrected a :
  loop_inv corrected a -> loop_inv corrected (recenter s current bin h a).
Proof.
  intros Ha. split_inv Ha. unfold recenter, SetQx, SetQy, with_X, with_Y.
  repeat split; simpl; rewrite ?length_wr; done.
Qed.

(** The loop of [ProcessCorrections]: the corrected vector gets the
    recentered components at the active harmonics of the current vector and
    keeps what it holds elsewhere. *)
Lemma recenter_loop s current bin corrected :
  wf current -> length (fQnX corrected) = 16%nat -> length (fQnY corrected) = 16%nat ->
  let r := for_each_harmonic current (recenter s current bin) corrected in
  loop_inv corrected r /\
  forall k, 0 <= k ->
    Qx r k =
      (if active current k
       then (Qx current k - GetXBinContent (fInputHistograms s) k bin) /
            (if fApplyWidthEqualization s
             then GetXBinError (fInputHistograms s) k bin else fone)
       else Qx corrected k)%F /\
    Qy r k =
      (if active current k
       then (Qy current k - GetYBinContent (fInputHistograms s) k bin) /
            (if fApplyWidthEqualization s
             then GetYBinError (fInputHistograms s) k bin else fone)
       else Qy corrected k)%F.
Proof.
  intros Hwf Hlx Hly r. subst r. rewrite for_each_harmonic_foldl.
  assert (Hinv0 : loop_inv corrected corrected) by (by repeat split).
  split.
  { apply (foldl_inv (fun a h => recenter s current bin h a) (loop_inv corrected));
      auto using recenter_inv. }
  intros k Hk.
  destruct (foldl_pointwise fQnX fQnY (fun a h => recenter s current bin h a)
              (loop_inv corrected)
              (fun h _ _ => (Qx current h - GetXBinContent (fInputHistograms s) h bin) /
                 (if fApplyWidthEqualization s
                  then GetXBinError (fInputHistograms s) h bin else fone))%F
              (fun h _ _ => (Qy current h - GetYBinContent (fInputHistograms s) h bin) /
                 (if fApplyWidthEqualization s
                  then GetYBinError (fInputHistograms s) h bin else fone))%F
              16) with (l := harmonics current) (a := corrected) (k := k)
    as [Hx Hy]; auto using recenter_inv, NoDup_harmonics.
  - intros a h k' Ha Hh Hk'. split_inv Ha.
    unfold recenter, SetQx, SetQy, with_X, with_Y; simpl. by rewrite rd_wr by lia.
  - intros a h k' Ha Hh Hk'. split_inv Ha.
    unfold recenter, SetQx, SetQy, with_X, with_Y; simpl. by rewrite rd_wr by lia.
  - intros h Hh%elem_of_harmonics. apply (active_range current) in Hh; [lia|done].
  - unfold Qx, Qy in *. rewrite Hx, Hy.
    destruct (active current k) eqn:Hact.
    + by rewrite !decide_True by (by apply elem_of_harmonics).
    + rewrite !decide_False; [done| |]; rewrite elem_of_harmonics; congruence.
Qed.

Lemma applying_cases s :
  applying (fState s) = true ->
  fState s = QCORRSTEP_applyCollect \/ fState s = QCORRSTEP_apply.
Proof. destruct (fState s); simpl; auto; discriminate. Qed.

(** C2.  When the step applies (APPLY_COLLECT or APPLY), the current Qn
    vector has good quality and the calibration bin of the event class is
    validated, [ProcessCorrections] completes and, for every active harmonic,
    the corrected Qn vector holds [(currentX - meanX) / widthX] and
    [(currentY - meanY) / widthY]: the means are the contents of the bin, the
    widths are 1 unless width equalization is on, and then the spreads of the
    bin.  The step was created for the detector configuration, so that the
    harmonic structures match. *)
Theorem ProcessCorrections_recenters s c vc :
  applying (fState s) = true ->
  IsGoodQuality (GetCurrentQnVector c) = true ->
  BinContentValidated (fInputHistograms s) (pc_GetBin (fInputHistograms s) vc) = true ->
  wf (GetCurrentQnVector c) ->
  same_structure (fCorrectedQnVector s) (GetCurrentQnVector c) ->
  exists s' c',
    ProcessCorrections s c vc = Done (s', c', true) /\
    GetCurrentQnVector c' = fCorrectedQnVector s' /\
    IsGoodQuality (fCorrectedQnVector s') = true /\
    forall h, active (GetCurrentQnVector c) h = true ->
      let bin := pc_GetBin (fInputHistograms s) vc in
      let meanX := GetXBinContent (fInputHistograms s) h bin in
      let meanY := GetYBinContent (fInputHistograms s) h bin in
      let widthX :=
        if fApplyWidthEqualization s then GetXBinError (fInputHistograms s) h bin else fone in
      let widthY :=
        if fApplyWidthEqualization s then GetYBinError (fInputHistograms s) h bin else fone in
      Qx (fCorrectedQnVector s') h = ((Qx (GetCurrentQnVector c) h - meanX) / widthX)%F /\
      Qy (fCorrectedQnVector s') h = ((Qy (GetCurrentQnVector c) h - meanY) / widthY)%F.
Proof.
  intros Happ Hgood Hval Hwf Hsame.
  destruct (Set_done (fCorrectedQnVector s) (GetCurrentQnVector c) false Hsame)
    as (r & Hset & HrX & HrY & Hrq & _).
  destruct Hwf as (Hlx & Hly & Hh).
  destruct (recenter_loop s (GetCurrentQnVector c) (pc_GetBin (fInputHistograms s) vc) r)
    as [Hinv Hcomp]; [done|congruence|congruence|].
  eexists _, _. split.
  { unfold ProcessCorrections.
    destruct (applying_cases s Happ) as [-> | ->]; by rewrite Hgood, Hset, Hval. }
  simpl.
  split; [done|]. split.
  { split_inv Hinv. unfold IsGoodQuality in *. congruence. }
  intros h Hact. destruct (Hcomp h) as [Hx Hy].
  { apply (active_range (GetCurrentQnVector c)) in Hact; [lia|done]. }
  unfold GetCurrentQnVector in *. rewrite Hact in Hx, Hy. done.
Qed.

Lemma Fill_sparse_spec (qa : QnCorrectionsHistogramSparse F) vc (weight : F) :
  let bin := hs_GetBin qa vc in
  hs_GetBin (Fill_sparse qa vc weight) = hs_GetBin qa /\
  GetBinContent_sparse (Fill_sparse qa vc weight) bin =
    (GetBinContent_sparse qa bin + weight)%F /\
  forall other, other <> bin ->
    GetBinContent_sparse (Fill_sparse qa vc weight) other = GetBinContent_sparse qa other.
Proof.
  unfold Fill_sparse, GetBinContent_sparse; simpl. split; [done|]. split.
  - by rewrite lookup_insert_eq.
  - intros other Hne. by rewrite lookup_insert_ne.
Qed.

(** C3, as amended.  When the step applies, the current Qn vector has good
    quality and the calibration bin of the event class is not validated (its
    entries are below the minimum number of entries), [ProcessCorrections]
    completes and the corrected Qn vector holds the components of the current
    Qn vector, unchanged; where the histogram of the not validated entries
    exists, its bin for the event class is incremented by 1 and its other
    bins are kept, and where it does not exist (NULL) nothing is recorded. *)
Theorem ProcessCorrections_not_validated s c vc :
  applying (fState s) = true ->
  IsGoodQuality (GetCurrentQnVector c) = true ->
  BinContentValidated (fInputHistograms s) (pc_GetBin (fInputHistograms s) vc) = false ->
  same_structure (fCorrectedQnVector s) (GetCurrentQnVector c) ->
  exists s' c',
    ProcessCorrections s c vc = Done (s', c', true) /\
    GetCurrentQnVector c' = fCorrectedQnVector s' /\
    fQnX (fCorrectedQnVector s') = fQnX (GetCurrentQnVector c) /\
    fQnY (fCorrectedQnVector s') = fQnY (GetCurrentQnVector c) /\
    IsGoodQuality (fCorrectedQnVector s') = true /\
    match fQANotValidatedBin s with
    | Some qa =>
        exists qa', fQANotValidatedBin s' = Some qa' /\
          let bin := hs_GetBin qa vc in
          GetBinContent_sparse qa' bin = (GetBinContent_sparse qa bin + fone)%F /\
          forall other, other <> bin ->
            GetBinContent_sparse qa' other = GetBinContent_sparse qa other
    | None => fQANotValidatedBin s' = None
    end.
Proof.
  intros Happ Hgood Hval Hsame.
  destruct (Set_done (fCorrectedQnVector s) (GetCurrentQnVector c) false Hsame)
    as (r & Hset & HrX & HrY & Hrq & _).
  eexists _, _. split.
  { unfold ProcessCorrections.
    destruct (applying_cases s Happ) as [-> | ->]; by rewrite Hgood, Hset, Hval. }
  simpl. repeat (split; [done || (unfold IsGoodQuality in *; congruence)|]).
  destruct (fQANotValidatedBin s) as [qa|]; [|done].
  eexists; split; [done|]. apply Fill_sparse_spec.
Qed.

(** C4.  When the current Qn vector has bad quality [ProcessCorrections]
    completes without error and computes nothing: the components of the
    corrected Qn vector of the step are the ones it held, the current Qn
    vector handed downstream has bad quality, and a step that applies marks
    its corrected Qn vector bad and hands it downstream.  A step in
    calibration returns before it reads the quality and changes nothing: its
    corrected Qn vector is the bad one it holds since it was created or
    cleared ([calibration_inv]). *)
Theorem ProcessCorrections_bad_quality s c vc :
  IsGoodQuality (GetCurrentQnVector c) = false ->
  exists s' c' applied,
    ProcessCorrections s c vc = Done (s', c', applied) /\
    fQnX (fCorrectedQnVector s') = fQnX (fCorrectedQnVector s) /\
    fQnY (fCorrectedQnVector s') = fQnY (fCorrectedQnVector s) /\
    same_structure (fCorrectedQnVector s') (fCorrectedQnVector s) /\
    fQANotValidatedBin s' = fQANotValidatedBin s /\
    IsGoodQuality (GetCurrentQnVector c') = false /\
    (applying (fState s) = true ->
       IsGoodQuality (fCorrectedQnVector s') = false /\
       GetCurrentQnVector c' = fCorrectedQnVector s') /\
    (applying (fState s) = false -> s' = s /\ c' = c) /\
    (calibration_inv s -> IsGoodQuality (fCorrectedQnVector s') = false).
Proof.
  intros Hbad. unfold ProcessCorrections, calibration_inv.
  destruct (fState s) eqn:Hst; rewrite ?Hbad; eexists _, _, _;
    (split; [done|]); simpl; repeat split; auto; try discriminate.
Qed.

Lemma recenter_fields s current bin (l : list Z) : forall a,
  let r := foldl (fun (acc : QnCorrectionsQnVector F) h => recenter s current bin h acc) a l in
  fName r = fName a /\ fTitle r = fTitle a /\
  fHighestHarmonic r = fHighestHarmonic a /\ fHarmonicMask r = fHarmonicMask a /\
  fGoodQuality r = fGoodQuality a.
Proof.
  induction l as [|h l IH]; intros a; cbn [foldl]; [done|].
  destruct (IH (recenter s current bin h a)) as (-> & -> & -> & -> & ->). done.
Qed.

(** C10.  In APPLY_COLLECT and in APPLY [ProcessCorrections] ends by making
    the corrected Qn vector of the step the current Qn vector of the detector
    configuration and returns true, whether the current Qn vector is good or
    bad, the bin validated or not: the detector configuration after the call
    is the one before it with its current Qn vector replaced by the output of
    the step.  That output is the step's own vector (its name, title and
    harmonic structure): for a bad input, the vector the step held, marked
    bad; for a good input, the copy [Set] makes of the input, recentered
    over the harmonics of the input when the bin is validated.  In
    CALIBRATION the call returns false and leaves the step and the detector
    configuration as they are.  The step was created for the detector
    configuration: the harmonic structures match when [Set] is reached. *)
Theorem ProcessCorrections_updates_current s c vc :
  (IsGoodQuality (GetCurrentQnVector c) = true ->
   same_structure (fCorrectedQnVector s) (GetCurrentQnVector c)) ->
  (applying (fState s) = true ->
     exists s' c', ProcessCorrections s c vc = Done (s', c', true) /\
       GetCurrentQnVector c' = fCorrectedQnVector s' /\
       c' = UpdateCurrentQnVector c (fCorrectedQnVector s') /\
       fState s' = fState s /\
       fName (fCorrectedQnVector s') = fName (fCorrectedQnVector s) /\
       fTitle (fCorrectedQnVector s') = fTitle (fCorrectedQnVector s) /\
       same_structure (fCorrectedQnVector s') (fCorrectedQnVector s) /\
       IsGoodQuality (fCorrectedQnVector s') = IsGoodQuality (GetCurrentQnVector c) /\
       (IsGoodQuality (GetCurrentQnVector c) = false ->
          fCorrectedQnVector s' = SetGood (fCorrectedQnVector s) false) /\
       (IsGoodQuality (GetCurrentQnVector c) = true ->
          exists copied,
            Set_ (fCorrectedQnVector s) (GetCurrentQnVector c) false = Done copied /\
            fQnX copied = fQnX (GetCurrentQnVector c) /\
            fQnY copied = fQnY (GetCurrentQnVector c) /\
            fCorrectedQnVector s' =
              if BinContentValidated (fInputHistograms s)
                   (pc_GetBin (fInputHistograms s) vc)
              then for_each_harmonic (GetCurrentQnVector c)
                     (recenter s (GetCurrentQnVector c)
                        (pc_GetBin (fInputHistograms s) vc)) copied
              else copied)) /\
  (fState s = QCORRSTEP_calibration -> ProcessCorrections s c vc = Done (s, c, false)) /\
  (forall s' c', ProcessCorrections s c vc = Done (s', c', false) ->
     fState s = QCORRSTEP_calibration /\ c' = c).
Proof.
  intros Hsame. split; [|split].
  - intros Happ. unfold ProcessCorrections.
    destruct (IsGoodQuality (GetCurrentQnVector c)) eqn:Hgood.
    + destruct (Set_done _ _ false (Hsame eq_refl))
        as (r & Hset & HX & HY & Hg & Hh & Hm & Hn & Ht).
      unfold IsGoodQuality in *.
      destruct (applying_cases s Happ) as [Hst | Hst]; rewrite Hst, Hset;
        destruct (BinContentValidated _ _) eqn:Hval; eexists _, _;
        (split; [done|]); simpl; rewrite ?Hst;
        try (rewrite for_each_harmonic_foldl;
             destruct (recenter_fields s (GetCurrentQnVector c)
                         (pc_GetBin (fInputHistograms s) vc)
                         (harmonics (GetCurrentQnVector c)) r)
               as (Hrn & Hrt & Hrh & Hrm & Hrg);
             rewrite Hrn, Hrt, Hrg; unfold same_structure; rewrite Hrh, Hrm);
        split_and!; try done; try congruence; try (by split);
        intros _; exists r; split_and!; try done;
        by rewrite for_each_harmonic_foldl.
    + destruct (applying_cases s Happ) as [Hst | Hst]; rewrite Hst; eexists _, _;
        (split; [done|]); simpl; rewrite ?Hst; split_and!; try done.
  - intros Hst. unfold ProcessCorrections. by rewrite Hst.
  - intros s' c'. unfold ProcessCorrections.
    destruct (fState s); [intros [= <- <-]; done| |];
      (destruct (IsGoodQuality (GetCurrentQnVector c));
       [destruct (Set_ _ _ _); [destruct (BinContentValidated _ _)|]|]; done).
Qed.

Lemma calibration_inv_ProcessCorrections s c vc s' c' applied :
  calibration_inv s -> ProcessCorrections s c vc = Done (s', c', applied) ->
  calibration_inv s'.
Proof.
  unfold calibration_inv, ProcessCorrections. intros Hinv.
  destruct (fState s) eqn:Hst; [by intros [= <- <- <-]; rewrite Hst| |];
    (destruct (IsGoodQuality (GetCurrentQnVector c));
     [destruct (Set_ _ _ _); [destruct (BinContentValidated _ _)|]|];
     intros [= <- <- <-]; simpl; rewrite ?Hst; done).
Qed.

Lemma calibration_inv_ClearCorrectionStep s : calibration_inv (ClearCorrectionStep s).
Proof. by intros _. Qed.

Lemma calibration_inv_ProcessDataCollection s input vc :
  calibration_inv s -> calibration_inv (ProcessDataCollection s input vc).1.
Proof.
  unfold calibration_inv, ProcessDataCollection.
  destruct (fState s) eqn:Hst; simpl; rewrite ?Hst; auto.
Qed.

End RecenteringFacts.

(** ** The gain equalization step *)

Section InputGainEqualizationFacts.
Import InputGainEqualization.
Context {F : Type} `{!FloatOps F}.
Implicit Types (s : QnCorrectionsInputGainEqualization F)
  (c : QnCorrectionsDetectorConfigurationBase F) (vc : list F)
  (d : QnCorrectionsDataVectorChannelized F).

Lemma applying_gain_cases s :
  applying (fState s) = true ->
  fState s = QCORRSTEP_applyCollect \/ fState s = QCORRSTEP_apply.
Proof. destruct (fState s); simpl; auto; discriminate. Qed.

Lemma equalize_average_collect s bank vc d :
  equalize_average (collect s bank vc) vc d = equalize_average s vc d.
Proof. reflexivity. Qed.

(** C5, the rule.  In average mode, when the step applies, [Process]
    returns true and every data vector of the bank keeps its angle, channel
    id and raw weight and gets the equalized weight
    [(rawWeight / channelAverage) * groupWeight] when the channel average
    read from the input histograms exceeds 1e-6, and 0 otherwise, whatever
    the raw weight. *)
Lemma Process_average_rule s c vc :
  applying (fState s) = true ->
  fEqualizationMethod s = QEQUAL_averageEqualization ->
  exists s' c',
    Process s c vc = (s', c', true) /\
    length (GetInputDataBank c') = length (GetInputDataBank c) /\
    forall i d, GetInputDataBank c !! i = Some d ->
      exists d', GetInputDataBank c' !! i = Some d' /\
        Phi d' = Phi d /\ GetId d' = GetId d /\ Weight d' = Weight d /\
        let channelAverage :=
          pi_GetBinContent (fInputHistograms s)
            (pi_GetBin (fInputHistograms s) vc (GetId d)) in
        let groupWeight :=
          if fUseChannelGroupsWeights s then
            pi_GetGrpBinContent (fInputHistograms s)
              (pi_GetGrpBin (fInputHistograms s) vc (GetId d))
          else match fHardCodedWeights s with
               | Some weights => rd weights (GetId d)
               | None => fone
               end in
        EqualizedWeight d' =
          (if fMinimumSignificantValue <? channelAverage
           then (Weight d / channelAverage) * groupWeight
           else fzero)%F.
Proof.
  intros Happ Hm.
  assert (Hbank : exists s' c', Process s c vc = (s', c', true) /\
            GetInputDataBank c' = equalize_average s vc <$> GetInputDataBank c).
  { unfold Process, apply.
    destruct (applying_gain_cases s Happ) as [-> | ->]; eexists _, _;
      (split; [done|]); simpl; by rewrite Hm. }
  destruct Hbank as (s' & c' & HP & Hb). exists s', c'. split; [done|].
  rewrite Hb. split; [by rewrite length_fmap|].
  intros i d Hd. exists (equalize_average s vc d).
  rewrite list_lookup_fmap, Hd. split; [done|].
  unfold equalize_average, groupweight.
  destruct (fMinimumSignificantValue <? _)%F; by repeat split.
Qed.

End InputGainEqualizationFacts.

(** ** Concrete runs *)

Lemma wf_vector name x y good : QnVector.wf (Run.vector name x y good).
Proof. repeat split. unfold MAXHARMONICNUMBERSUPPORTED. simpl. lia. Qed.

Lemma wf_vector12 name x y good : QnVector.wf (Run.vector12 name x y good).
Proof. repeat split. unfold MAXHARMONICNUMBERSUPPORTED. simpl. lia. Qed.

(** The vectors of the runs are the ones the constructors and the setters
    make. *)
Lemma vector_constructed x y :
  exists q, QnVector.new "plain" 1 None = Done q /\
    QnVector.SetGood (QnVector.SetQy (QnVector.SetQx q 1 x) 1 y) true =
    Run.vector "plain" x y true.
Proof. eexists. split; reflexivity. Qed.

Lemma legacy_vector_constructed :
  QnVectors.new 1 None = Done (Run.legacy_vector 0 0) /\
  QnVectors.new 2 None = Done (Run.legacy_vector12 0 0).
Proof. split; reflexivity. Qed.

(** C1, on QnCorrectionsQnVectors.cxx.  A build Q vector with harmonic 1
    active, components (4, 2) and sum of weights 2, which is not below 1e-6:
    [NormalizeQoverM] leaves the components (4, 2), where the claim has
    (2, 1).  The division is governed by [fSumW < fMinimumSignificantValue]
    and by a condition on bit 0 of the mask. *)
Theorem legacy_NormalizeQoverM_does_not_divide :
  let b := Run.legacy_build 4 2 2 in
  (QnVectors.fSumW b <? fMinimumSignificantValue)%F = false /\
  QnVectors.active (QnVectors.Qn b) 1 = true /\
  QnVectors.NormalizeQoverM b = b /\
  QnVectors.Qx (QnVectors.Qn (QnVectors.NormalizeQoverM b)) 1 = 4%float /\
  QnVectors.Qy (QnVectors.Qn (QnVectors.NormalizeQoverM b)) 1 = 2%float.
Proof. repeat split. Qed.

(** The same build Q vector in QnCorrectionsQnVector.cxx: one division by the
    sum of weights, a second call divides again, and below 1e-6 nothing
    changes. *)
Lemma NormalizeQoverM_runs :
  let b := Run.build 4 2 2 in
  let once := QnVector.NormalizeQoverM b in
  let twice := QnVector.NormalizeQoverM once in
  let low := Run.build 4 2 1e-7 in
  (QnVector.Qx (QnVector.Qn once) 1 = 2%float /\
   QnVector.Qy (QnVector.Qn once) 1 = 1%float) /\
  (QnVector.Qx (QnVector.Qn twice) 1 = 1%float /\
   QnVector.Qy (QnVector.Qn twice) 1 = 0.5%float) /\
  QnVector.NormalizeQoverM low = low.
Proof. repeat split. Qed.

(** C6, on QnCorrectionsQnVectors.cxx.  A Q vector with harmonics 1 and 2
    active and components (3, 4) at harmonic 1: [ActivateHarmonic(1)] resets
    the components of harmonic 1 to (0, 0), where the claim has a no-op. *)
Theorem legacy_ActivateHarmonic_resets_active :
  let q := Run.legacy_vector12 3 4 in
  QnVectors.active q 1 = true /\
  QnVectors.Qx q 1 = 3%float /\ QnVectors.Qy q 1 = 4%float /\
  QnVectors.ActivateHarmonic q 1 = Done (Run.legacy_vector12 0 0).
Proof. repeat split. Qed.

(** C7.  A Q vector with components (3, 4) at the active harmonic 1.  In
    QnCorrectionsQnVector.cxx [Normalize] stores [QxNorm(1)] = 0.6 and then
    [QyNorm(1)], which is computed from the X component just stored:
    4 / sqrt(0.6 * 0.6 + 4 * 4), not 0.8.  In QnCorrectionsQnVectors.cxx
    [Normalize] leaves (3, 4). *)
Theorem Normalize_3_4 :
  let q := Run.vector "plain" 3 4 true in
  QnVector.active q 1 = true /\
  QnVector.Qx (QnVector.Normalize q) 1 = 0.6%float /\
  QnVector.Qy (QnVector.Normalize q) 1 = (4 / PrimFloat.sqrt (0.6 * 0.6 + 4 * 4))%float /\
  PrimFloat.eqb (QnVector.Qy (QnVector.Normalize q) 1) 0.8 = false /\
  PrimFloat.ltb 0.98 (QnVector.Qy (QnVector.Normalize q) 1) = true /\
  QnVectors.Normalize (Run.legacy_vector 3 4) = Run.legacy_vector 3 4.
Proof. repeat split. Qed.

(** C9.  A build Q vector with harmonic 1 active, components (2, 6) and sum
    of weights 4: [NormalizeQoverSquareRootOfM] of QnCorrectionsQnVector.cxx
    adds the quotient to the component and stores (3, 9), where the claim has
    (1, 3); in QnCorrectionsQnVectors.cxx it leaves (2, 6). *)
Theorem NormalizeQoverSquareRootOfM_adds :
  let b := Run.build 2 6 4 in
  let r := QnVector.Qn (QnVector.NormalizeQoverSquareRootOfM b) in
  (QnVector.fSumW b <? fMinimumSignificantValue)%F = false /\
  QnVector.active (QnVector.Qn b) 1 = true /\
  (QnVector.Qx r 1 = 3%float /\ QnVector.Qy r 1 = 9%float) /\
  ((2 / PrimFloat.sqrt 4)%float = 1%float /\ (6 / PrimFloat.sqrt 4)%float = 3%float) /\
  QnVectors.NormalizeQoverSquareRootOfM (Run.legacy_build 2 6 4) = Run.legacy_build 2 6 4.
Proof. repeat split. Qed.

(** C8, as amended.  [Set] of QnCorrectionsQnVector.cxx fails fatally exactly
    when the harmonic structures ([fHighestHarmonic] or [fHarmonicMask])
    differ, and when they match it copies the components and the quality flag
    of the other vector (and its name and title when asked) and keeps the
    structure.  [Set] of QnCorrectionsQnVectors.cxx compares nothing and
    never fails: the receiver becomes the other vector, structure
    included. *)
Theorem Set_checks_structure {F : Type} `{!FloatOps F}
    (q other : QnVector.QnCorrectionsQnVector F) (changename : bool)
    (lq lother : QnVectors.QnCorrectionsQnVector F) :
  (QnVector.Set_ q other changename = Fatal <-> ~ QnVector.same_structure q other) /\
  (QnVector.same_structure q other ->
     exists r, QnVector.Set_ q other changename = Done r /\
       QnVector.fQnX r = QnVector.fQnX other /\
       QnVector.fQnY r = QnVector.fQnY other /\
       QnVector.fGoodQuality r = QnVector.fGoodQuality other /\
       QnVector.fHighestHarmonic r = QnVector.fHighestHarmonic q /\
       QnVector.fHarmonicMask r = QnVector.fHarmonicMask q /\
       QnVector.fName r = (if changename then QnVector.fName other else QnVector.fName q) /\
       QnVector.fTitle r = (if changename then QnVector.fTitle other else QnVector.fTitle q)) /\
  QnVectors.Set_ lq lother = Done lother.
Proof.
  split; [apply Set_fatal|]. split; [apply Set_done|apply legacy_Set_done].
Qed.

Lemma Set_checks_structure_witness :
  QnVector.Set_ (Run.vector "rec" 0 0 false) (Run.vector12 "plain" 5 5 true) false = Fatal /\
  (exists r, QnVector.Set_ (Run.vector "rec" 0 0 false) (Run.vector "plain" 5 5 true) false
             = Done r /\
     QnVector.Qx r 1 = 5%float /\ QnVector.Qy r 1 = 5%float /\
     QnVector.IsGoodQuality r = true /\ QnVector.fName r = "rec") /\
  QnVectors.Set_ (Run.legacy_vector 0 0) (Run.legacy_vector12 5 5) = Done (Run.legacy_vector12 5 5).
Proof.
  split; [|split].
  - apply (proj1 (Set_checks_structure (Run.vector "rec" 0 0 false)
                    (Run.vector12 "plain" 5 5 true) false
                    (Run.legacy_vector 0 0) (Run.legacy_vector 0 0))).
    intros [Hh _]. discriminate Hh.
  - destruct (proj1 (proj2 (Set_checks_structure (Run.vector "rec" 0 0 false)
                    (Run.vector "plain" 5 5 true) false
                    (Run.legacy_vector 0 0) (Run.legacy_vector 0 0))))
      as (r & Hr & Hx & Hy & Hq & _ & _ & Hn & _).
    + split; reflexivity.
    + exists r. unfold QnVector.Qx, QnVector.Qy, QnVector.IsGoodQuality.
      rewrite Hx, Hy, Hq, Hn. repeat split; try reflexivity. exact Hr.
  - apply (proj2 (proj2 (Set_checks_structure (Run.vector "rec" 0 0 false)
                    (Run.vector "plain" 5 5 true) false
                    (Run.legacy_vector 0 0) (Run.legacy_vector12 5 5)))).
Defined.

(** C8 as stated fails on QnCorrectionsQnVectors.cxx: the two vectors differ
    in [fHighestHarmonic] and in [fHarmonicMask] and [Set] completes. *)
Lemma legacy_Set_mismatch_completes :
  QnVectors.fHighestHarmonic (Run.legacy_vector 0 0) = 1 /\
  QnVectors.fHighestHarmonic (Run.legacy_vector12 5 5) = 2 /\
  QnVectors.fHarmonicMask (Run.legacy_vector 0 0) = 2 /\
  QnVectors.fHarmonicMask (Run.legacy_vector12 5 5) = 6 /\
  QnVectors.Set_ (Run.legacy_vector 0 0) (Run.legacy_vector12 5 5)
    = Done (Run.legacy_vector12 5 5) /\
  QnVectors.Set_ (Run.legacy_vector 0 0) (Run.legacy_vector12 5 5) <> Fatal.
Proof. repeat split. discriminate. Qed.

(** C2 at current Q = (5, 5), mean (2, 2), no width equalization: the
    corrected Q is (3, 3). *)
Lemma ProcessCorrections_recenters_witness :
  exists s' c',
    Recentering.ProcessCorrections (Run.recentering QCORRSTEP_apply 10 None false)
      (Run.configuration 5 5 true 2) [] = Done (s', c', true) /\
    QnVector.Qx (Recentering.fCorrectedQnVector s') 1 = 3%float /\
    QnVector.Qy (Recentering.fCorrectedQnVector s') 1 = 3%float.
Proof.
  destruct (ProcessCorrections_recenters (Run.recentering QCORRSTEP_apply 10 None false)
              (Run.configuration 5 5 true 2) [])
    as (s' & c' & HP & _ & _ & Hf).
  - reflexivity.
  - reflexivity.
  - reflexivity.
  - unfold QnVector.wf, MAXHARMONICNUMBERSUPPORTED. simpl. repeat split; lia.
  - split; reflexivity.
  - exists s', c'. split; [exact HP|]. exact (Hf 1 eq_refl).
Defined.

(** With width equalization the spreads (0.5, 0.25) of the bin divide:
    (5 - 2) / 0.5 = 6 and (5 - 2) / 0.25 = 12. *)
Lemma ProcessCorrections_width_equalization_run :
  exists s' c',
    Recentering.ProcessCorrections (Run.recentering QCORRSTEP_applyCollect 10 None true)
      (Run.configuration 5 5 true 2) [] = Done (s', c', true) /\
    QnVector.Qx (Recentering.fCorrectedQnVector s') 1 = 6%float /\
    QnVector.Qy (Recentering.fCorrectedQnVector s') 1 = 12%float.
Proof. eexists _, _. repeat split. Qed.

(** C3 at current Q = (5, 5) and a bin with one entry: the corrected Q is
    (5, 5) and the bin of the histogram of not validated entries goes from 0
    to 1. *)
Lemma ProcessCorrections_not_validated_witness :
  exists s' c' qa',
    Recentering.ProcessCorrections
      (Run.recentering QCORRSTEP_apply 1 (Some Run.not_validated_histogram) false)
      (Run.configuration 5 5 true 2) [] = Done (s', c', true) /\
    QnVector.Qx (Recentering.fCorrectedQnVector s') 1 = 5%float /\
    QnVector.Qy (Recentering.fCorrectedQnVector s') 1 = 5%float /\
    Recentering.fQANotValidatedBin s' = Some qa' /\
    GetBinContent_sparse Run.not_validated_histogram 0 = 0%float /\
    GetBinContent_sparse qa' 0 = 1%float.
Proof.
  destruct (ProcessCorrections_not_validated
              (Run.recentering QCORRSTEP_apply 1 (Some Run.not_validated_histogram) false)
              (Run.configuration 5 5 true 2) [])
    as (s' & c' & HP & _ & Hx & Hy & _ & qa' & Hqa & Hbin & _).
  - reflexivity.
  - reflexivity.
  - reflexivity.
  - split; reflexivity.
  - exists s', c', qa'. unfold QnVector.Qx, QnVector.Qy. rewrite Hx, Hy.
    repeat split; try reflexivity; [exact HP|exact Hqa|exact Hbin].
Defined.

(** C3 as stated fails where the histogram of not validated entries was not
    created: the step applies, the current Q is good, the bin is not
    validated, and no diagnostic bin exists before or after the call. *)
Lemma ProcessCorrections_not_validated_no_histogram :
  let s := Run.recentering QCORRSTEP_apply 1 None false in
  let c := Run.configuration 5 5 true 2 in
  applying (Recentering.fState s) = true /\
  QnVector.IsGoodQuality (GetCurrentQnVector c) = true /\
  BinContentValidated (Recentering.fInputHistograms s)
    (pc_GetBin (Recentering.fInputHistograms s) []) = false /\
  exists s' c',
    Recentering.ProcessCorrections s c [] = Done (s', c', true) /\
    Recentering.fQANotValidatedBin s = None /\
    Recentering.fQANotValidatedBin s' = None /\
    ~ (exists qa qa', Recentering.fQANotValidatedBin s = Some qa /\
         Recentering.fQANotValidatedBin s' = Some qa' /\
         GetBinContent_sparse qa' (hs_GetBin qa []) =
           (GetBinContent_sparse qa (hs_GetBin qa []) + 1)%float).
Proof.
  repeat split. eexists _, _. repeat split. intros (qa & qa' & Hqa & _). discriminate Hqa.
Qed.

(** C4 at a current Q of bad quality, in APPLY: the corrected Q of the step
    keeps its components and is bad, as is the current Q handed on. *)
Lemma ProcessCorrections_bad_quality_witness :
  exists s' c',
    Recentering.ProcessCorrections (Run.recentering QCORRSTEP_apply 10 None false)
      (Run.configuration 5 5 false 2) [] = Done (s', c', true) /\
    QnVector.fQnX (Recentering.fCorrectedQnVector s') = Run.zeros /\
    QnVector.fQnY (Recentering.fCorrectedQnVector s') = Run.zeros /\
    QnVector.IsGoodQuality (Recentering.fCorrectedQnVector s') = false /\
    QnVector.IsGoodQuality (GetCurrentQnVector c') = false.
Proof.
  destruct (ProcessCorrections_bad_quality (Run.recentering QCORRSTEP_apply 10 None false)
              (Run.configuration 5 5 false 2) [])
    as (s' & c' & applied & HP & Hx & Hy & _ & _ & Hcur & Happ & _).
  - reflexivity.
  - destruct (Happ eq_refl) as [Hbad _].
    exists s', c'. rewrite Hx, Hy.
    assert (Hr : applied = true).
    { change (Recentering.ProcessCorrections (Run.recentering QCORRSTEP_apply 10 None false)
               (Run.configuration 5 5 false 2) [])
        with (Done (Recentering.with_corrected (Run.recentering QCORRSTEP_apply 10 None false)
                      (Run.vector "rec" 0 0 false),
                    UpdateCurrentQnVector (Run.configuration 5 5 false 2)
                      (Run.vector "rec" 0 0 false), true)) in HP.
      by injection HP as _ _ <-. }
    rewrite Hr in HP. repeat split; try reflexivity; [exact HP|exact Hbad|exact Hcur].
Defined.

(** C10 at a current Q of good quality and a bin that is not validated, in
    APPLY_COLLECT: the call returns true and the detector configuration is
    the one before the call with the corrected Q of the step, named "rec",
    as its current Q. *)
Lemma ProcessCorrections_updates_current_witness :
  exists s' c',
    Recentering.ProcessCorrections (Run.recentering QCORRSTEP_applyCollect 1 None false)
      (Run.configuration 5 5 true 2) [] = Done (s', c', true) /\
    GetCurrentQnVector c' = Recentering.fCorrectedQnVector s' /\
    c' = UpdateCurrentQnVector (Run.configuration 5 5 true 2)
           (Recentering.fCorrectedQnVector s') /\
    QnVector.fName (Recentering.fCorrectedQnVector s') = "rec" /\
    QnVector.Qx (Recentering.fCorrectedQnVector s') 1 = 5%float.
Proof.
  destruct (proj1 (ProcessCorrections_updates_current
                     (Run.recentering QCORRSTEP_applyCollect 1 None false)
                     (Run.configuration 5 5 true 2) []
                     (fun _ => conj eq_refl eq_refl)) eq_refl)
    as (s' & c' & HP & Hcur & Hc & _ & Hn & _ & _ & _ & _ & Hgood).
  destruct (Hgood eq_refl) as (copied & Hset & HX & _ & Hout).
  exists s', c'. split; [exact HP|]. split; [exact Hcur|]. split; [exact Hc|].
  split; [exact Hn|]. rewrite Hout. unfold QnVector.Qx. simpl. rewrite HX. reflexivity.
Defined.

(** C5.  In average mode, when the step applies, every data vector of the
    bank keeps its angle, channel id and raw weight and gets the equalized
    weight [(rawWeight / channelAverage) * groupWeight] when the channel
    average read from the input histograms exceeds 1e-6, and 0 otherwise,
    whatever the raw weight.  In particular raw weight 2.0, channel average
    4.0 and group weight 1.0 give 0.5, and channel average 1e-7 gives 0. *)
Theorem Process_average_equalization {F : Type} `{!FloatOps F}
    (s : InputGainEqualization.QnCorrectionsInputGainEqualization F)
    (c : QnCorrectionsDetectorConfigurationBase F) (vc : list F) :
  (applying (InputGainEqualization.fState s) = true ->
   InputGainEqualization.fEqualizationMethod s
     = InputGainEqualization.QEQUAL_averageEqualization ->
   exists s' c',
     InputGainEqualization.Process s c vc = (s', c', true) /\
     length (GetInputDataBank c') = length (GetInputDataBank c) /\
     forall i d, GetInputDataBank c !! i = Some d ->
       exists d', GetInputDataBank c' !! i = Some d' /\
         Phi d' = Phi d /\ GetId d' = GetId d /\ Weight d' = Weight d /\
         let channelAverage :=
           pi_GetBinContent (InputGainEqualization.fInputHistograms s)
             (pi_GetBin (InputGainEqualization.fInputHistograms s) vc (GetId d)) in
         let groupWeight :=
           if InputGainEqualization.fUseChannelGroupsWeights s then
             pi_GetGrpBinContent (InputGainEqualization.fInputHistograms s)
               (pi_GetGrpBin (InputGainEqualization.fInputHistograms s) vc (GetId d))
           else match InputGainEqualization.fHardCodedWeights s with
                | Some weights => rd weights (GetId d)
                | None => fone
                end in
         EqualizedWeight d' =
           (if fMinimumSignificantValue <? channelAverage
            then (Weight d / channelAverage) * groupWeight
            else fzero)%F) /\
  (EqualizedWeight <$>
     GetInputDataBank
       (InputGainEqualization.Process (Run.gain_equalization QCORRSTEP_apply 4)
          (Run.configuration 5 5 true 2) []).1.2) = [0.5%float] /\
  (EqualizedWeight <$>
     GetInputDataBank
       (InputGainEqualization.Process (Run.gain_equalization QCORRSTEP_applyCollect 1e-7)
          (Run.configuration 5 5 true 2) []).1.2) = [0%float].
Proof.
  split; [|split; reflexivity]. apply Process_average_rule.
Qed.

(** C5 at raw weight 2.0, channel average 4.0, no group weights (1.0): the
    equalized weight is 0.5. *)
Lemma Process_average_equalization_witness :
  exists s' c' d',
    InputGainEqualization.Process (Run.gain_equalization QCORRSTEP_apply 4)
      (Run.configuration 5 5 true 2) [] = (s', c', true) /\
    GetInputDataBank c' !! 0%nat = Some d' /\
    Weight d' = 2%float /\ EqualizedWeight d' = 0.5%float.
Proof.
  destruct (proj1 (Process_average_equalization (Run.gain_equalization QCORRSTEP_apply 4)
                     (Run.configuration 5 5 true 2) []) eq_refl eq_refl)
    as (s' & c' & HP & _ & Hd).
  destruct (Hd 0%nat _ eq_refl) as (d' & Hd' & _ & _ & Hw & He).
  exists s', c', d'. repeat split; [exact HP|exact Hd'|exact Hw|exact He].
Defined.

(** [NormalizeQoverM] of QnCorrectionsQnVector.cxx at components (4, 2) and
    sum of weights 2: (2, 1). *)
Lemma NormalizeQoverM_spec_witness :
  QnVector.Qx (QnVector.Qn (QnVector.NormalizeQoverM (Run.build 4 2 2))) 1 = 2%float /\
  QnVector.Qy (QnVector.Qn (QnVector.NormalizeQoverM (Run.build 4 2 2))) 1 = 1%float.
Proof.
  destruct (NormalizeQoverM_spec (Run.build 4 2 2) ltac:(unfold QnVector.wf, MAXHARMONICNUMBERSUPPORTED; simpl; repeat split; lia))
    as (_ & _ & _ & Hk).
  exact (Hk 1 ltac:(lia)).
Defined.

(** [NormalizeQoverSquareRootOfM] of QnCorrectionsQnVector.cxx at components
    (2, 6) and sum of weights 4: (3, 9). *)
Lemma NormalizeQoverSquareRootOfM_spec_witness :
  QnVector.Qx (QnVector.Qn (QnVector.NormalizeQoverSquareRootOfM (Run.build 2 6 4))) 1
    = 3%float /\
  QnVector.Qy (QnVector.Qn (QnVector.NormalizeQoverSquareRootOfM (Run.build 2 6 4))) 1
    = 9%float.
Proof.
  destruct (NormalizeQoverSquareRootOfM_spec (Run.build 2 6 4) ltac:(unfold QnVector.wf, MAXHARMONICNUMBERSUPPORTED; simpl; repeat split; lia))
    as (_ & _ & _ & Hk).
  exact (Hk 1 ltac:(lia)).
Defined.

(** [Normalize] of QnCorrectionsQnVector.cxx at (3, 4). *)
Lemma Normalize_spec_witness :
  QnVector.Qx (QnVector.Normalize (Run.vector "plain" 3 4 true)) 1 = 0.6%float /\
  QnVector.Qy (QnVector.Normalize (Run.vector "plain" 3 4 true)) 1
    = (4 / PrimFloat.sqrt (0.6 * 0.6 + 4 * 4))%float.
Proof.
  destruct (Normalize_spec (Run.vector "plain" 3 4 true) ltac:(unfold QnVector.wf, MAXHARMONICNUMBERSUPPORTED; simpl; repeat split; lia)) as (_ & Hk).
  exact (Hk 1 ltac:(lia)).
Defined.

(** [ActivateHarmonic] of QnCorrectionsQnVector.cxx: harmonic 16 is fatal,
    the active harmonic 1 is kept as it is, harmonic 2 is activated. *)
Lemma ActivateHarmonic_spec_witness :
  QnVector.ActivateHarmonic (Run.vector "plain" 3 4 true) 16 = Fatal /\
  QnVector.ActivateHarmonic (Run.vector "plain" 3 4 true) 1
    = Done (Run.vector "plain" 3 4 true) /\
  exists q', QnVector.ActivateHarmonic (Run.vector "plain" 3 4 true) 2 = Done q' /\
    QnVector.active q' 2 = true /\ QnVector.fHarmonicMask q' = 6 /\
    QnVector.Qx q' 1 = 3%float /\ QnVector.Qy q' 1 = 4%float.
Proof.
  split; [|split].
  - apply (proj1 (ActivateHarmonic_spec (Run.vector "plain" 3 4 true) 16)).
    unfold MAXHARMONICNUMBERSUPPORTED. lia.
  - apply (proj1 (proj2 (ActivateHarmonic_spec (Run.vector "plain" 3 4 true) 1)));
      [unfold MAXHARMONICNUMBERSUPPORTED; lia|reflexivity].
  - destruct (proj2 (proj2 (ActivateHarmonic_spec (Run.vector "plain" 3 4 true) 2))
                ltac:(unfold QnVector.wf, MAXHARMONICNUMBERSUPPORTED; simpl; repeat split; lia))
      as (q' & Hq' & _ & Hm & Ha & _ & _ & _ & Hk);
      [unfold MAXHARMONICNUMBERSUPPORTED; lia|reflexivity|].
    exists q'. destruct (Hk 1 ltac:(lia) ltac:(lia)) as [Hx Hy].
    repeat split; [exact Hq'|exact Ha|exact Hm|exact Hx|exact Hy].
Defined.

(** [NormalizeQoverM] of QnCorrectionsQnVectors.cxx at components (4, 2) and
    sum of weights 2: nothing changes. *)
Lemma legacy_NormalizeQoverM_even_witness :
  QnVectors.NormalizeQoverM (Run.legacy_build 4 2 2) = Run.legacy_build 4 2 2.
Proof. apply (legacy_NormalizeQoverM_even (Run.legacy_build 4 2 2)). reflexivity. Defined.

(** The step of the runs is the one [CreateSupportDataStructures] makes for
    the detector configuration of the runs: its corrected Qn vector has the
    harmonic structure of the current Qn vector. *)
Lemma CreateSupportDataStructures_run state entries qa width x y good weight :
  Recentering.CreateSupportDataStructures (Run.recentering state entries qa width)
    (Run.configuration x y good weight) = Done (Run.recentering state entries qa width) /\
  QnVector.same_structure
    (Recentering.fCorrectedQnVector (Run.recentering state entries qa width))
    (GetCurrentQnVector (Run.configuration x y good weight)).
Proof. repeat split. Qed.

Lemma new_configuration_run :
  new_configuration (F := float) "detector" 1 None =
  Done {| fPlainQnVector := Run.vector "plain" 0 0 false;
          fCorrectedQnVector := Run.vector "plain" 0 0 false;
          fTempQnVector := Run.vector "temp" 0 0 false;
          fDataVectorBank := [] |}.
Proof. reflexivity. Qed.

(** * Further properties of the code *)

(** ** Constructors and harmonic maps of QnCorrectionsQnVector.cxx *)

Section QnVectorStructure.
Import QnVector.
Context {F : Type} `{!FloatOps F}.
Implicit Types (q : QnCorrectionsQnVector F).

Lemma rd_replicate_zero (k : Z) : rd (replicate 16 (fzero (F := F))) k = fzero.
Proof.
  unfold rd. destruct (decide (Z.to_nat k < 16)%nat) as [Hlt|Hge].
  - by apply lookup_total_replicate_2.
  - rewrite list_lookup_total_alt.
    by rewrite (proj1 (lookup_replicate_None 16 fzero (Z.to_nat k))) by lia.
Qed.

Lemma foldl_collect (cond : Z -> bool) (l : list Z) : forall store : list Z,
  foldl (fun store h => if cond h then store ++ [h] else store) store l =
  store ++ filter (fun h => cond h = true) l.
Proof.
  induction l as [|h l IH]; intros store; cbn [foldl].
  - by rewrite filter_nil, app_nil_r.
  - rewrite IH. destruct (cond h) eqn:Hc.
    + rewrite filter_cons_True by done. by rewrite <- app_assoc.
    + rewrite filter_cons_False by (by rewrite Hc). done.
Qed.

Lemma foldl_count (cond : Z -> bool) (l : list Z) : forall n : Z,
  foldl (fun n h => if cond h then n + 1 else n) n l =
  n + Z.of_nat (length (filter (fun h => cond h = true) l)).
Proof.
  induction l as [|h l IH]; intros n; cbn [foldl].
  - rewrite filter_nil. simpl. lia.
  - rewrite IH. destruct (cond h) eqn:Hc.
    + rewrite filter_cons_True by done. simpl. lia.
    + rewrite filter_cons_False by (by rewrite Hc). done.
Qed.

Lemma GetHarmonicsMap_harmonics q : GetHarmonicsMap q = harmonics q.
Proof. unfold GetHarmonicsMap, harmonics. by rewrite foldl_collect. Qed.

Lemma StronglySorted_seqZ (m : Z) (n : nat) : StronglySorted Z.lt (seqZ m (Z.of_nat n)).
Proof.
  revert m. induction n as [|n IH]; intros m.
  - constructor.
  - rewrite seqZ_cons by lia. constructor.
    + replace (Z.pred (Z.of_nat (S n))) with (Z.of_nat n) by lia. apply IH.
    + apply Forall_forall. intros x Hx%elem_of_seqZ. lia.
Qed.

Lemma StronglySorted_filter_lt (P : Z -> Prop) `{!forall x, Decision (P x)} (l : list Z) :
  StronglySorted Z.lt l -> StronglySorted Z.lt (filter P l).
Proof.
  induction 1 as [|x l Hs IH Hall]; [constructor|].
  destruct (decide (P x)).
  - rewrite filter_cons_True by done. constructor; [done|].
    apply Forall_forall. intros y [_ Hy]%list_elem_of_filter.
    by apply (proj1 (Forall_forall _ _) Hall).
  - by rewrite filter_cons_False.
Qed.

(** X6.  [GetHarmonicsMap] writes exactly the active harmonics, in strictly
    ascending order, and [GetNoOfHarmonics] is the number of harmonics it
    writes: the size the caller has to provide for the store. *)
Theorem GetHarmonicsMap_spec q :
  (forall h, h ∈ GetHarmonicsMap q <-> active q h = true) /\
  StronglySorted Z.lt (GetHarmonicsMap q) /\
  GetNoOfHarmonics q = Z.of_nat (length (GetHarmonicsMap q)).
Proof.
  rewrite GetHarmonicsMap_harmonics. split; [|split].
  - intros h. apply elem_of_harmonics.
  - unfold harmonics. apply StronglySorted_filter_lt.
    destruct (Z.le_gt_cases 0 (fHighestHarmonic q)) as [Hpos|Hneg].
    + rewrite <- (Z2Nat.id (fHighestHarmonic q)) by done. apply StronglySorted_seqZ.
    + rewrite seqZ_nil by lia. constructor.
  - unfold GetNoOfHarmonics, harmonics. by rewrite foldl_count.
Qed.

(** *** The masks *)

Lemma land_pow2 m h : 0 <= h -> Z.land m (2 ^ h) = if Z.testbit m h then 2 ^ h else 0.
Proof.
  intros Hh. apply Z.bits_inj'. intros i Hi.
  rewrite Z.land_spec, Z.pow2_bits_eqb by done.
  destruct (Z.testbit m h) eqn:Hm.
  - rewrite Z.pow2_bits_eqb by done.
    destruct (Z.eqb_spec h i) as [<-|]; [by rewrite Hm|by rewrite andb_false_r].
  - rewrite Z.bits_0. destruct (Z.eqb_spec h i) as [<-|]; [by rewrite Hm|by rewrite andb_false_r].
Qed.

Lemma mask_condition_testbit q h :
  1 <= h <= 15 -> mask_condition q h = Z.testbit (fHarmonicMask q) h.
Proof.
  intros Hh. unfold mask_condition. rewrite harmonicNumberMask_bit, land_pow2 by lia.
  assert (0 < 2 ^ h) by (apply Z.pow_pos_nonneg; lia).
  destruct (Z.testbit (fHarmonicMask q) h); [apply Z.eqb_refl|].
  apply Z.eqb_neq. lia.
Qed.

Lemma new_default_mask (n : Z) :
  0 <= n <= 15 ->
  (foldl (fun '(mask, currentHarmonic) (h : Z) =>
            (Z.lor mask (rd harmonicNumberMask (currentHarmonic + 1)), currentHarmonic + 1))
         (0, 0) (seqZ 0 n)).1 = Z.shiftl (Z.ones n) 1.
Proof.
  intros Hn.
  assert (Hall : Forall (fun k : Z =>
            (foldl (fun '(mask, currentHarmonic) (h : Z) =>
                      (Z.lor mask (rd harmonicNumberMask (currentHarmonic + 1)),
                       currentHarmonic + 1))
                   (0, 0) (seqZ 0 k)).1 = Z.shiftl (Z.ones k) 1) (seqZ 0 16))
    by (repeat constructor).
  rewrite Forall_forall in Hall. apply Hall, elem_of_seqZ. lia.
Qed.

Lemma testbit_shiftl_ones n i :
  0 <= n -> 0 <= i -> Z.testbit (Z.shiftl (Z.ones n) 1) i = (1 <=? i) && (i <=? n).
Proof.
  intros Hn Hi. rewrite Z.shiftl_spec by done.
  destruct (Z.leb_spec 1 i) as [H1|H1]; simpl.
  - rewrite Z.testbit_ones by done.
    destruct (Z.leb_spec 0 (i - 1)); [|lia]. simpl.
    destruct (Z.ltb_spec (i - 1) n), (Z.leb_spec i n); (done || lia).
  - apply Z.testbit_neg_r. lia.
Qed.

Lemma default_structure q n :
  fHighestHarmonic q = n -> n <= 15 ->
  (0 <= n -> fHarmonicMask q = Z.shiftl (Z.ones n) 1) ->
  (forall h, active q h = true <-> 1 <= h <= n) /\ (1 <= n -> tight q).
Proof.
  intros Hh Hn Hm.
  assert (Hact : forall h, active q h = true <-> 1 <= h <= n).
  { intros h. unfold active. rewrite Hh, !andb_true_iff, !Z.leb_le. split; [tauto|].
    intros Hr. split; [done|]. rewrite mask_condition_testbit by lia.
    rewrite Hm, testbit_shiftl_ones by lia. apply andb_true_iff. rewrite !Z.leb_le. lia. }
  split; [done|]. intros Hn1. split.
  - rewrite Hh. apply Hact. lia.
  - intros i Hi. rewrite Hh, Hm, testbit_shiftl_ones by lia.
    rewrite andb_true_iff, !Z.leb_le. lia.
Qed.

Lemma new_default_done (name : string) (n : Z) :
  n <= MAXHARMONICNUMBERSUPPORTED ->
  exists q, new (F := F) name n None = Done q /\
    wf q /\ fHighestHarmonic q = n /\ fName q = name /\ fGoodQuality q = false /\
    (forall h, active q h = true <-> 1 <= h <= n) /\
    (forall k, Qx q k = fzero /\ Qy q k = fzero) /\
    (1 <= n -> tight q).
Proof.
  unfold new, MAXHARMONICNUMBERSUPPORTED.
  intros Hn. destruct (Z.ltb_spec 15 n); [lia|].
  eexists; split; [done|].
  match goal with |- wf ?q /\ _ =>
    destruct (default_structure q n eq_refl Hn) as [Hact Htight] end.
  { intros Hn0. cbn [fHarmonicMask]. apply new_default_mask. lia. }
  split_and!; try done.
  intros k. unfold Qx, Qy. cbn [fQnX fQnY]. by rewrite !rd_replicate_zero.
Qed.

(** X7.  The constructor with the default harmonics: more than 15 harmonics
    is fatal; otherwise the Q vector has exactly the harmonics [1 .. n]
    active, every component zero, bad quality and the name passed. *)
Theorem new_default_spec (name : string) (n : Z) :
  (MAXHARMONICNUMBERSUPPORTED < n -> new (F := F) name n None = Fatal) /\
  (n <= MAXHARMONICNUMBERSUPPORTED ->
     exists q, new name n None = Done q /\
       wf q /\ fHighestHarmonic q = n /\ fName q = name /\ fGoodQuality q = false /\
       (forall h, active q h = true <-> 1 <= h <= n) /\
       (forall k, Qx q k = fzero /\ Qy q k = fzero) /\
       (1 <= n -> tight q)).
Proof.
  split; [|apply new_default_done].
  unfold new, MAXHARMONICNUMBERSUPPORTED. intros Hn. by destruct (Z.ltb_spec 15 n); [|lia].
Qed.

(** *** The constructor with a harmonic map *)

Lemma rd_app_length {A : Type} `{!Inhabited A} (l1 l2 : list A) (x : A) :
  rd (l1 ++ x :: l2) (Z.of_nat (length l1)) = x.
Proof.
  unfold rd. rewrite Nat2Z.id. apply list_lookup_total_correct.
  by rewrite lookup_app_r, Nat.sub_diag by lia.
Qed.

(** [for (h = 0; h < n; h++) ... map[h] ...] visits the entries of the map
    in order. *)
Lemma foldl_seqZ_rd {A B : Type} `{!Inhabited B} (f : A -> B -> A) (m : list B) :
  forall (rest : list B) (a : A),
    foldl (fun acc h => f acc (rd (m ++ rest) h)) a (seqZ 0 (Z.of_nat (length m))) =
    foldl f a m.
Proof.
  induction m as [|x m IH] using rev_ind; intros rest a; [done|].
  rewrite length_app, Nat.add_1_r, seqZ_S, !foldl_app. cbn [foldl].
  rewrite <- app_assoc. cbn [app]. rewrite IH. by rewrite Z.add_0_l, rd_app_length.
Qed.

Lemma foldl_pointwise_eq {A B : Type} (f g : A -> B -> A) (l : list B) (a : A) :
  (forall acc x, f acc x = g acc x) -> foldl f a l = foldl g a l.
Proof.
  intros Hfg. revert a. induction l as [|x l IH]; intros a; cbn [foldl]; [done|].
  by rewrite Hfg, IH.
Qed.

Lemma foldl_mask_bits (m : list Z) : forall (mask current i : Z),
  Z.testbit
    (foldl (fun '(mask, _) (c : Z) => (Z.lor mask (rd harmonicNumberMask c), c))
           (mask, current) m).1 i = true <->
  Z.testbit mask i = true \/ exists c, c ∈ m /\ Z.testbit (rd harmonicNumberMask c) i = true.
Proof.
  induction m as [|x m IH]; intros mask current i; cbn [foldl].
  - split; [auto|]. intros [?|(c & Hc & _)]; [done|]. by apply elem_of_nil in Hc.
  - rewrite IH, Z.lor_spec, orb_true_iff. split.
    + intros [[?|?]|(c & Hc & ?)]; [auto| |].
      * right. exists x. split; [left|done].
      * right. exists c. split; [by right|done].
    + intros [?|(c & Hc & ?)]; [auto|].
      apply elem_of_cons in Hc as [->|Hc]; [auto|]. right. by exists c.
Qed.

Lemma last_in_map (m : list Z) :
  m <> [] -> rd m (Z.of_nat (length m) - 1) ∈ m.
Proof.
  destruct m as [|x m] using rev_ind; [done|]. intros _.
  rewrite length_app, Nat.add_1_r.
  replace (Z.of_nat (S (length m)) - 1) with (Z.of_nat (length m)) by lia.
  rewrite rd_app_length. apply elem_of_app. right. left.
Qed.

Lemma new_map_done (name : string) (m : list Z) :
  let n := Z.of_nat (length m) in
  let highest := rd m (n - 1) in
  m <> [] -> highest <= MAXHARMONICNUMBERSUPPORTED ->
  (forall c, c ∈ m -> 1 <= c <= highest) ->
  exists q, new (F := F) name n (Some m) = Done q /\
    wf q /\ fHighestHarmonic q = highest /\ fGoodQuality q = false /\
    (forall h, active q h = true <-> h ∈ m) /\
    (forall k, Qx q k = fzero /\ Qy q k = fzero) /\
    tight q.
Proof.
  intros n highest. unfold new, MAXHARMONICNUMBERSUPPORTED. fold n. fold highest.
  intros Hne Hh Hm. destruct (Z.ltb_spec 15 highest); [lia|].
  eexists; split; [done|].
  assert (Hbits : forall i, 0 <= i ->
    Z.testbit
      (foldl (fun '(mask, currentHarmonic) (h : Z) =>
                let currentHarmonic := rd m h in
                (Z.lor mask (rd harmonicNumberMask currentHarmonic), currentHarmonic))
             (0, 0) (seqZ 0 n)).1 i = true <-> i ∈ m).
  { intros i Hi. subst n.
    rewrite (foldl_pointwise_eq _
               (fun acc h =>
                  (fun '(mask, _) (c : Z) => (Z.lor mask (rd harmonicNumberMask c), c))
                    acc (rd (m ++ []) h)))
      by (intros [mask current] h; by rewrite app_nil_r).
    rewrite (foldl_seqZ_rd
               (fun '(mask, _) (c : Z) => (Z.lor mask (rd harmonicNumberMask c), c)) m []).
    rewrite foldl_mask_bits, Z.bits_0. split.
    - intros [?|(c & Hc & Hb)]; [done|].
      rewrite harmonicNumberMask_bit, Z.pow2_bits_eqb in Hb
        by (specialize (Hm c Hc); lia).
      by apply Z.eqb_eq in Hb as <-.
    - intros Hin. right. exists i. split; [done|].
      rewrite harmonicNumberMask_bit, Z.pow2_bits_eqb by (specialize (Hm i Hin); lia).
      apply Z.eqb_refl. }
  assert (Hact : forall h q, fHighestHarmonic q = highest ->
    (forall i, 0 <= i -> Z.testbit (fHarmonicMask q) i = true <-> i ∈ m) ->
    active q h = true <-> h ∈ m).
  { intros h q Hq Hb. unfold active. rewrite Hq, !andb_true_iff, !Z.leb_le. split.
    - intros [[H1 H2] Hc]. rewrite mask_condition_testbit in Hc by lia.
      apply Hb; [lia|done].
    - intros Hin. specialize (Hm h Hin). split; [lia|].
      rewrite mask_condition_testbit by lia. apply Hb; [lia|done]. }
  unfold wf, tight, Qx, Qy, MAXHARMONICNUMBERSUPPORTED.
  cbn [fQnX fQnY fHighestHarmonic fGoodQuality]. split_and!; try done.
  + intros h. by apply Hact.
  + intros k. by rewrite !rd_replicate_zero.
  + apply Hact; [done|done|]. by apply last_in_map.
  + intros i Hi Hb. apply Hm. by apply Hbits.
Qed.

(** X8.  The constructor with a harmonic map whose last entry is its
    largest: a last entry above 15 is fatal; otherwise the Q vector has
    exactly the harmonics of the map active and the last entry as highest
    harmonic, every component zero and bad quality. *)
Theorem new_map_spec (name : string) (m : list Z) :
  let n := Z.of_nat (length m) in
  let highest := rd m (n - 1) in
  (MAXHARMONICNUMBERSUPPORTED < highest -> new (F := F) name n (Some m) = Fatal) /\
  (m <> [] -> highest <= MAXHARMONICNUMBERSUPPORTED ->
   (forall c, c ∈ m -> 1 <= c <= highest) ->
     exists q, new name n (Some m) = Done q /\
       wf q /\ fHighestHarmonic q = highest /\ fGoodQuality q = false /\
       (forall h, active q h = true <-> h ∈ m) /\
       (forall k, Qx q k = fzero /\ Qy q k = fzero) /\
       tight q).
Proof.
  intros n highest. split; [|apply new_map_done].
  unfold new, MAXHARMONICNUMBERSUPPORTED. fold n. fold highest.
  intros Hh. by destruct (Z.ltb_spec 15 highest); [|lia].
Qed.

(** *** The harmonic map of a Q vector builds its structure again *)

Lemma tight_same_mask q q' :
  wf q -> tight q -> tight q' ->
  fHighestHarmonic q' = fHighestHarmonic q ->
  (forall h, active q' h = true <-> active q h = true) ->
  fHarmonicMask q' = fHarmonicMask q.
Proof.
  intros (_ & _ & Hmax) [_ Hb] [_ Hb'] Hh Hact.
  unfold MAXHARMONICNUMBERSUPPORTED in Hmax.
  apply Z.bits_inj'. intros i Hi.
  destruct (Z.testbit (fHarmonicMask q') i) eqn:H1, (Z.testbit (fHarmonicMask q) i) eqn:H2;
    try done.
  - specialize (Hb' i Hi H1). rewrite Hh in Hb'.
    assert (Ha : active q' i = true).
    { unfold active. rewrite mask_condition_testbit, H1, Hh by lia.
      rewrite !andb_true_iff, !Z.leb_le. lia. }
    apply Hact in Ha. unfold active in Ha.
    rewrite mask_condition_testbit, H2, andb_false_r in Ha by lia. done.
  - specialize (Hb i Hi H2).
    assert (Ha : active q i = true).
    { unfold active. rewrite mask_condition_testbit, H2 by lia.
      rewrite !andb_true_iff, !Z.leb_le. lia. }
    apply Hact in Ha. unfold active in Ha.
    rewrite mask_condition_testbit, H1, andb_false_r in Ha by lia. done.
Qed.

Lemma harmonics_last q :
  tight q -> 1 <= fHighestHarmonic q ->
  harmonics q <> [] /\
  rd (harmonics q) (Z.of_nat (length (harmonics q)) - 1) = fHighestHarmonic q.
Proof.
  intros [Hact _] Hpos.
  apply active_spec in Hact as [_ Hc].
  assert (Hsplit : exists l, harmonics q = l ++ [fHighestHarmonic q]).
  { unfold harmonics.
    exists (filter (fun h => mask_condition q h = true)
              (seqZ 1 (Z.of_nat (Z.to_nat (fHighestHarmonic q - 1))))).
    assert (Hseq : seqZ 1 (fHighestHarmonic q) =
                   seqZ 1 (Z.of_nat (Z.to_nat (fHighestHarmonic q - 1)))
                     ++ [fHighestHarmonic q]).
    { replace (fHighestHarmonic q)
        with (Z.of_nat (S (Z.to_nat (fHighestHarmonic q - 1)))) at 1 by lia.
      rewrite seqZ_S. do 2 f_equal. lia. }
    rewrite Hseq, filter_app.
    by rewrite (filter_cons_True (fun h => mask_condition q h = true)), filter_nil. }
  destruct Hsplit as [l ->]. split.
  - intros Hnil. by apply app_eq_nil in Hnil as [_ ?].
  - rewrite length_app, Nat.add_1_r.
    replace (Z.of_nat (S (length l)) - 1) with (Z.of_nat (length l)) by lia.
    apply rd_app_length.
Qed.

Lemma tight_positive q : tight q -> 1 <= fHighestHarmonic q.
Proof.
  intros [Hact _]. unfold active in Hact.
  rewrite !andb_true_iff, !Z.leb_le in Hact. lia.
Qed.

Lemma new_from_harmonic_map (name : string) q :
  wf q -> tight q ->
  exists q', new name (GetNoOfHarmonics q) (Some (GetHarmonicsMap q)) = Done q' /\
    same_structure q' q /\ wf q' /\ tight q' /\ fGoodQuality q' = false /\
    fName q' = name /\
    forall k, Qx q' k = fzero /\ Qy q' k = fzero.
Proof.
  intros Hwf Ht. pose proof (tight_positive q Ht) as Hpos.
  destruct (harmonics_last q Ht Hpos) as [Hne Hlast].
  unfold GetNoOfHarmonics. rewrite GetHarmonicsMap_harmonics, foldl_count, Z.add_0_l.
  fold (harmonics q).
  destruct (new_map_done name (harmonics q)) as (q' & Hq' & Hwf' & Hh & Hg & Hact & Hz & Ht').
  - done.
  - rewrite Hlast. apply Hwf.
  - intros c Hc%elem_of_harmonics. rewrite Hlast.
    apply active_spec in Hc as [Hc _]. apply elem_of_seqZ in Hc. lia.
  - exists q'. rewrite Hlast in Hh. split; [done|].
    assert (Hname : fName q' = name).
    { unfold new in Hq'. destruct (_ <? _); [done|]. by injection Hq' as <-. }
    split_and!; try done.
    split; [done|]. apply tight_same_mask; try done.
    intros h. by rewrite Hact, elem_of_harmonics.
Qed.

(** X9.  A Q vector built from the number of harmonics and the harmonic map
    of a Q vector [q] (as the correction steps build their corrected Qn
    vector) has the harmonic structure of [q], so that [Set] between the two
    does not fail; it has zero components and bad quality.  [q] is a vector
    as the constructors and [ActivateHarmonic] build it: its highest harmonic
    is active and its mask has no other bits than those of its harmonics. *)
Theorem harmonic_map_round_trip (name : string) q :
  wf q -> tight q ->
  exists q', new name (GetNoOfHarmonics q) (Some (GetHarmonicsMap q)) = Done q' /\
    same_structure q' q /\ wf q' /\ tight q' /\ fGoodQuality q' = false /\
    (forall k, Qx q' k = fzero /\ Qy q' k = fzero) /\
    (forall changename, exists r, Set_ q' q changename = Done r).
Proof.
  intros Hwf Ht.
  destruct (new_from_harmonic_map name q Hwf Ht) as (q' & Hq' & Hs & Hwf' & Ht' & Hg & _ & Hz).
  exists q'. split_and!; try done.
  intros changename. destruct (Set_done q' q changename Hs) as (r & Hr & _). by exists r.
Qed.

(** *** ActivateHarmonic keeps what is active *)

Lemma land_lor_keep m b x : Z.land m x = x -> Z.land (Z.lor m b) x = x.
Proof.
  intros H. apply Z.bits_inj'. intros i Hi.
  apply (f_equal (fun z => Z.testbit z i)) in H.
  rewrite Z.land_spec in H. rewrite Z.land_spec, Z.lor_spec.
  destruct (Z.testbit m i), (Z.testbit b i), (Z.testbit x i); simpl in *; congruence.
Qed.

Lemma activate_monotone q highest h k :
  fHighestHarmonic q <= highest ->
  active q k = true -> active (activate q highest h) k = true.
Proof.
  intros Hh. unfold active, mask_condition, activate.
  cbn [fHighestHarmonic fHarmonicMask].
  rewrite !andb_true_iff, !Z.leb_le, !Z.eqb_eq. intros [[H1 H2] Hc].
  split; [lia|]. by apply land_lor_keep.
Qed.

Lemma activate_tight q highest h :
  wf q -> 1 <= h <= 15 ->
  (highest = h /\ fHighestHarmonic q < h \/ highest = fHighestHarmonic q /\ h <= highest) ->
  (tight q \/ fHarmonicMask q = 0 /\ fHighestHarmonic q <= 0) ->
  tight (activate q highest h).
Proof.
  intros Hwf Hh Hcase Hq.
  assert (Hmax : highest <= MAXHARMONICNUMBERSUPPORTED).
  { destruct Hwf as (_ & _ & ?). unfold MAXHARMONICNUMBERSUPPORTED in *. lia. }
  destruct (activate_spec q highest h Hwf) as (_ & Hm & Hact & _);
    [unfold MAXHARMONICNUMBERSUPPORTED; lia|lia|].
  split.
  - cbn [activate fHighestHarmonic].
    destruct Hcase as [[-> _]|[-> Hle]]; [done|].
    destruct Hq as [[Ha _]|[_ ?]]; [|lia].
    by apply activate_monotone.
  - intros i Hi. rewrite Hm, Z.lor_spec, Z.pow2_bits_eqb, orb_true_iff by lia.
    cbn [activate fHighestHarmonic]. intros [Hb|Hb%Z.eqb_eq].
    + destruct Hq as [[_ Hbits]|[Hz _]].
      * specialize (Hbits i Hi Hb). lia.
      * by rewrite Hz, Z.bits_0 in Hb.
    + subst i. lia.
Qed.

(** X10.  [ActivateHarmonic] on a harmonic within [1 .. 15] only grows the
    structure: the harmonic is active afterwards, every harmonic that was
    active stays active, the highest harmonic becomes the larger of the old
    one and the new harmonic, the arrays keep their shape, and a second call
    with the same harmonic changes nothing.  It keeps the structure of the
    constructors (the highest harmonic active, no other mask bits). *)
Theorem ActivateHarmonic_grows q h q' :
  wf q -> 1 <= h <= MAXHARMONICNUMBERSUPPORTED ->
  ActivateHarmonic q h = Done q' ->
  wf q' /\ active q' h = true /\
  fHighestHarmonic q' = Z.max (fHighestHarmonic q) h /\
  (forall k, active q k = true -> active q' k = true) /\
  ActivateHarmonic q' h = Done q' /\
  (tight q \/ fHarmonicMask q = 0 /\ fHighestHarmonic q <= 0 -> tight q').
Proof.
  intros Hwf Hh. unfold MAXHARMONICNUMBERSUPPORTED in Hh.
  assert (Hmax : fHighestHarmonic q <= 15) by apply Hwf.
  assert (Hres : forall highest,
    (highest = h /\ fHighestHarmonic q < h \/ highest = fHighestHarmonic q /\ h <= highest) ->
    let r := activate q highest h in
    wf r /\ active r h = true /\ fHighestHarmonic r = Z.max (fHighestHarmonic q) h /\
    (forall k, active q k = true -> active r k = true) /\
    ActivateHarmonic r h = Done r /\
    (tight q \/ fHarmonicMask q = 0 /\ fHighestHarmonic q <= 0 -> tight r)).
  { intros highest Hcase r.
    destruct (activate_spec q highest h Hwf) as (Hwf' & _ & Hact & _);
      [unfold MAXHARMONICNUMBERSUPPORTED; lia|unfold MAXHARMONICNUMBERSUPPORTED; lia|].
    split_and!; try done.
    - subst r. cbn [activate fHighestHarmonic]. lia.
    - intros k. apply activate_monotone. lia.
    - apply ActivateHarmonic_active; [unfold MAXHARMONICNUMBERSUPPORTED; lia|done].
    - by apply activate_tight. }
  intros Hq. unfold ActivateHarmonic in Hq.
  destruct (Z.ltb_spec MAXHARMONICNUMBERSUPPORTED h) as [Hlt|_];
    [unfold MAXHARMONICNUMBERSUPPORTED in Hlt; lia|].
  destruct (Z.ltb_spec (fHighestHarmonic q) h) as [Hlt|Hge].
  - injection Hq as <-. apply Hres. lia.
  - destruct (mask_condition q h) eqn:Hc.
    + injection Hq as <-.
      assert (Ha : active q h = true).
      { unfold active. rewrite Hc, !andb_true_iff, !Z.leb_le. lia. }
      split_and!; try done.
      * lia.
      * apply ActivateHarmonic_active; [unfold MAXHARMONICNUMBERSUPPORTED; lia|done].
      * intros [?|[_ ?]]; [done|lia].
    + injection Hq as <-. apply Hres. lia.
Qed.

End QnVectorStructure.

(** ** Accumulation and copy of build Q vectors (QnCorrectionsQnVector.cxx) *)

Ltac solve_step_at unf q :=
  let Ha := fresh "Ha" in
  intros Ha ? ?; rewrite <- (mask_condition_inv q _ _ Ha);
  unf; unfold QnVector.with_X, QnVector.with_Y;
  match goal with
  | |- context [QnVector.mask_condition ?a ?h] => destruct (QnVector.mask_condition a h)
  end;
  simpl; [split_inv Ha; rewrite ?rd_wr by lia | ];
  first [done | case_decide; subst; done].

(** *** [Int_t] sums *)

Lemma Int_t_wrap_range (z : Z) : - 2 ^ 31 <= Int_t_wrap z < 2 ^ 31.
Proof.
  unfold Int_t_wrap.
  pose proof (Z.mod_pos_bound (z + 2 ^ 31) (2 ^ 32) ltac:(lia)). lia.
Qed.

Lemma Int_t_wrap_small (z : Z) : - 2 ^ 31 <= z < 2 ^ 31 -> Int_t_wrap z = z.
Proof. intros Hz. unfold Int_t_wrap. rewrite Z.mod_small; lia. Qed.

Section QnVectorBuildFacts.
Import QnVector.
Context {F : Type} `{!FloatOps F}.
Implicit Types (q : QnCorrectionsQnVector F) (b other : QnCorrectionsQnVectorBuild F).

Lemma Add_loop other q :
  wf q ->
  let r := foldl (Add_body other) q (seqZ 1 (fHighestHarmonic q)) in
  loop_inv q r /\
  forall k, 0 <= k ->
    Qx r k = (if active q k then Qx q k + Qx (Qn other) k else Qx q k)%F /\
    Qy r k = (if active q k then Qy q k + Qy (Qn other) k else Qy q k)%F.
Proof.
  intros Hwf r. subst r.
  assert (Hinv : forall a h, loop_inv q a -> loop_inv q (Add_body other a h)).
  { intros a h. solve_body_inv ltac:(unfold Add_body). }
  split.
  { apply (foldl_inv (Add_body other) (loop_inv q)); auto using loop_inv_refl. }
  intros k Hk.
  destruct (foldl_pointwise fQnX fQnY (Add_body other) (loop_inv q)
              (fun h x _ => if mask_condition q h then x + Qx (Qn other) h else x)%F
              (fun h _ y => if mask_condition q h then y + Qy (Qn other) h else y)%F
              16 Hinv) with (l := seqZ 1 (fHighestHarmonic q)) (a := q) (k := k)
    as [Hx Hy]; auto using loop_inv_refl, NoDup_seqZ.
  - intros a h k'. solve_step_at ltac:(unfold Add_body) q.
  - intros a h k'. solve_step_at ltac:(unfold Add_body) q.
  - intros h Hh%elem_of_seqZ. destruct Hwf as (_ & _ & Hwf).
    unfold MAXHARMONICNUMBERSUPPORTED in Hwf. lia.
  - unfold Qx, Qy in *. rewrite Hx, Hy.
    destruct (active q k) eqn:Hact.
    + apply active_spec in Hact as [Hin Hc]. rewrite !decide_True by done. by rewrite Hc.
    + destruct (decide (k ∈ seqZ 1 (fHighestHarmonic q))) as [Hin|Hin]; [|done].
      destruct (mask_condition q k) eqn:Hc; [|done].
      assert (active q k = true) by (apply active_spec; done). congruence.
Qed.

(** X11.  [Add] accumulates the other build Q vector: the sums of weights
    add up, the numbers of entries add up as [Int_t] values (the sum wraps
    around at 32 bits and is the plain sum when that is within the [Int_t]
    range), and at each harmonic active in the receiver the components of
    the other vector at that harmonic are added, whether or not the harmonic
    is active in the other vector; the other components, the structure and
    the quality of the receiver are kept. *)
Theorem Add_spec b other :
  wf (Qn b) ->
  let r := Add b other in
  fSumW r = (fSumW b + fSumW other)%F /\
  fN r = Int_t_wrap (fN b + fN other) /\
  - 2 ^ 31 <= fN r < 2 ^ 31 /\
  (- 2 ^ 31 <= fN b + fN other < 2 ^ 31 -> fN r = fN b + fN other) /\
  loop_inv (Qn b) (Qn r) /\
  forall k, 0 <= k ->
    Qx (Qn r) k =
      (if active (Qn b) k then Qx (Qn b) k + Qx (Qn other) k else Qx (Qn b) k)%F /\
    Qy (Qn r) k =
      (if active (Qn b) k then Qy (Qn b) k + Qy (Qn other) k else Qy (Qn b) k)%F.
Proof.
  intros Hwf r. subst r. unfold Add, Int_t_add, GetN. cbn [fSumW fN Qn].
  destruct (Add_loop other (Qn b) Hwf) as [Hinv Hk].
  split; [done|]. split; [done|]. split; [apply Int_t_wrap_range|].
  split; [apply Int_t_wrap_small|]. split; [exact Hinv|exact Hk].
Qed.

(** X12.  [Set] of a build Q vector fails fatally exactly when the harmonic
    structures differ; otherwise the receiver takes the components, the
    quality, the sum of weights and the number of entries of the other
    vector, and keeps its own name and title. *)
Theorem BuildSet_spec b other :
  (BuildSet b other = Fatal <-> ~ same_structure (Qn b) (Qn other)) /\
  (same_structure (Qn b) (Qn other) ->
     exists r, BuildSet b other = Done r /\
       fSumW r = fSumW other /\ fN r = fN other /\
       fQnX (Qn r) = fQnX (Qn other) /\ fQnY (Qn r) = fQnY (Qn other) /\
       fGoodQuality (Qn r) = fGoodQuality (Qn other) /\
       same_structure (Qn r) (Qn b) /\
       fName (Qn r) = fName (Qn b) /\ fTitle (Qn r) = fTitle (Qn b)).
Proof.
  unfold BuildSet. split.
  - rewrite <- (Set_fatal (Qn b) (Qn other) false).
    destruct (Set_ (Qn b) (Qn other) false); split; done.
  - intros Hs. destruct (Set_done (Qn b) (Qn other) false Hs)
      as (r & -> & Hx & Hy & Hq & Hh & Hm & Hn & Ht).
    eexists; split; [done|]. by repeat split.
Qed.

End QnVectorBuildFacts.

(** ** The Q vectors of QnCorrectionsQnVectors.cxx, continued *)

Section QnVectorsMore.
Import QnVectors.
Context {F : Type} `{!FloatOps F}.
Implicit Types (q : QnCorrectionsQnVector F) (b other : QnCorrectionsQnVectorBuild F).

Lemma legacy_new_map_even (m : list Z) q :
  Forall (fun c => 0 <= c <= 15) m ->
  new (Z.of_nat (length m)) (Some m) = Done q -> Z.odd (fHarmonicMask q) = false.
Proof.
  intros Hm. unfold new. destruct (_ <? _); [done|]. intros [= <-]. cbn [fHarmonicMask].
  rewrite (foldl_pointwise_eq _
             (fun acc h =>
                (fun '(mask, _) (c : Z) => (Z.lor mask (rd harmonicNumberMask c), c))
                  acc (rd (m ++ []) h)))
    by (intros [mask current] h; by rewrite app_nil_r).
  rewrite (foldl_seqZ_rd
             (fun '(mask, _) (c : Z) => (Z.lor mask (rd harmonicNumberMask c), c)) m []).
  assert (Hgen : forall mask current,
    Z.odd mask = false ->
    Z.odd (foldl (fun '(mask, _) (c : Z) => (Z.lor mask (rd harmonicNumberMask c), c))
                 (mask, current) m).1 = false).
  { induction Hm as [|c m Hc Hm IH]; intros mask current Hmask; cbn [foldl]; [done|].
    apply IH. by rewrite odd_lor, Hmask, harmonicNumberMask_even. }
  by apply Hgen.
Qed.

(** X13.  No harmonic mask of this file has bit 0: the constructor, with the
    default harmonics or with a harmonic map within [0 .. 15], builds an
    even mask, and [ActivateHarmonic] keeps the mask even. *)
Theorem legacy_mask_stays_even :
  (forall n q, new (F := F) n None = Done q -> Z.odd (fHarmonicMask q) = false) /\
  (forall (m : list Z) q,
     Forall (fun c => 0 <= c <= 15) m ->
     new (F := F) (Z.of_nat (length m)) (Some m) = Done q ->
     Z.odd (fHarmonicMask q) = false) /\
  (forall q h q',
     0 <= h -> Z.odd (fHarmonicMask q) = false ->
     ActivateHarmonic q h = Done q' -> Z.odd (fHarmonicMask q') = false).
Proof.
  split; [apply legacy_new_even|]. split; [apply legacy_new_map_even|].
  apply legacy_ActivateHarmonic_even.
Qed.

(** X14.  On a Q vector whose mask is even, as every mask this file builds
    is, the loops over the harmonics never run their body: [Normalize] and
    [NormalizeQoverSquareRootOfM] return the vector as it is, and [Add] adds
    the sums of weights and, as [Int_t] values, the numbers of entries (the
    sum wraps around at 32 bits and is the plain sum when that is within the
    [Int_t] range) but no component. *)
Theorem legacy_loops_keep_components b other :
  Z.odd (fHarmonicMask (Qn b)) = false ->
  Normalize (Qn b) = Qn b /\
  NormalizeQoverSquareRootOfM b = b /\
  Add b other =
    {| Qn := Qn b; fSumW := (fSumW b + fSumW other)%F;
       fN := Int_t_wrap (fN b + fN other) |} /\
  (- 2 ^ 31 <= fN b + fN other < 2 ^ 31 ->
   Add b other =
     {| Qn := Qn b; fSumW := (fSumW b + fSumW other)%F; fN := fN b + fN other |}).
Proof.
  intros Hq. split; [by apply legacy_Normalize_even|].
  split; [by apply legacy_NormalizeQoverSquareRootOfM_even|].
  assert (Hadd : Add b other =
    {| Qn := Qn b; fSumW := (fSumW b + fSumW other)%F;
       fN := Int_t_wrap (fN b + fN other) |}).
  { unfold Add, Int_t_add, GetN, GetSumOfWeights. f_equal. apply foldl_fixed.
    intros h. unfold Add_body. by rewrite legacy_mask_condition, Hq. }
  split; [exact Hadd|].
  intros Hrange. rewrite Hadd. by rewrite Int_t_wrap_small.
Qed.

(** X15.  [ActivateHarmonic] of this file on a harmonic within [0 .. 15], on
    a Q vector with an even mask: it completes, stores zero in both
    components of the harmonic whether the harmonic was active or not, and
    keeps the other components. *)
Theorem legacy_ActivateHarmonic_always_resets q h :
  wf q -> Z.odd (fHarmonicMask q) = false -> 0 <= h <= nMaxHarmonicNumberSupported ->
  exists q', ActivateHarmonic q h = Done q' /\
    Qx q' h = fzero /\ Qy q' h = fzero /\
    fHarmonicMask q' = Z.lor (fHarmonicMask q) (rd harmonicNumberMask h) /\
    fHighestHarmonic q' = Z.max (fHighestHarmonic q) h /\
    forall k, 0 <= k -> k <> h -> Qx q' k = Qx q k /\ Qy q' k = Qy q k.
Proof.
  intros (Hx & Hy & _) Hq Hh. unfold ActivateHarmonic, nMaxHarmonicNumberSupported in *.
  destruct (Z.ltb_spec 15 h); [lia|]. rewrite legacy_mask_condition, Hq.
  destruct (Z.ltb_spec (fHighestHarmonic q) h); eexists; (split; [done|]);
    unfold Qx, Qy; cbn [fQnX fQnY fHarmonicMask fHighestHarmonic];
    rewrite !rd_wr_eq by lia; (split_and!; try done; try lia);
    intros k Hk Hne; rewrite !rd_wr by lia; by rewrite !decide_False.
Qed.

End QnVectorsMore.

(** ** The recentering step, continued *)

Section RecenteringMore.
Import QnVector Recentering.
Context {F : Type} `{!FloatOps F}.
Implicit Types (s : QnCorrectionsQnVectorRecentering F)
  (c : QnCorrectionsDetectorConfigurationBase F) (vc : list F)
  (p : QnCorrectionsProfileComponents F) (q input stale : QnCorrectionsQnVector F).

Lemma collect_loop input vc (l : list Z) : forall p,
  let p' := foldl (fun (acc : QnCorrectionsProfileComponents F) harmonic =>
                     FillY (FillX acc harmonic vc (Qx input harmonic))
                           harmonic vc (Qy input harmonic)) p l in
  pc_fills p' = pc_fills p ++ mjoin (fills_of input vc <$> l) /\
  pc_GetBin p' = pc_GetBin p /\ pc_entries p' = pc_entries p /\
  pc_MinNoOfEntriesToValidate p' = pc_MinNoOfEntriesToValidate p /\
  pc_XBinContent p' = pc_XBinContent p /\ pc_YBinContent p' = pc_YBinContent p /\
  pc_XBinError p' = pc_XBinError p /\ pc_YBinError p' = pc_YBinError p.
Proof.
  induction l as [|h l IH]; intros p; cbn [foldl fmap list_fmap mjoin list_join].
  - by rewrite app_nil_r.
  - destruct (IH (FillY (FillX p h vc (Qx input h)) h vc (Qy input h)))
      as (Hf & ? & ? & ? & ? & ? & ? & ?).
    split; [|by repeat split].
    rewrite Hf. unfold fills_of. cbn [FillY FillX Fill_component pc_fills].
    by rewrite <- !app_assoc.
Qed.

(** X16.  [ProcessDataCollection] fills the calibration profile and nothing
    else.  In CALIBRATION and APPLY_COLLECT, for an input Qn vector of good
    quality, it appends [FillX] and [FillY] of the components of each
    harmonic of the input, in the ascending order of [GetHarmonicsMap]; for
    an input of bad quality, and in APPLY, it fills nothing.  It returns
    false in CALIBRATION only. *)
Theorem ProcessDataCollection_collects s input vc :
  let s' := (ProcessDataCollection s input vc).1 in
  let collected :=
    match fState s with
    | QCORRSTEP_apply => []
    | _ => if IsGoodQuality input
           then mjoin (fills_of input vc <$> GetHarmonicsMap input) else []
    end in
  pc_fills (fCalibrationHistograms s') = pc_fills (fCalibrationHistograms s) ++ collected /\
  (ProcessDataCollection s input vc).2 = applying (fState s) /\
  fState s' = fState s /\
  fCorrectedQnVector s' = fCorrectedQnVector s /\
  fInputHistograms s' = fInputHistograms s /\
  fQANotValidatedBin s' = fQANotValidatedBin s /\
  fApplyWidthEqualization s' = fApplyWidthEqualization s /\
  fMinNoOfEntriesToValidate s' = fMinNoOfEntriesToValidate s.
Proof.
  assert (Hc : pc_fills (collect (fCalibrationHistograms s) input vc) =
               pc_fills (fCalibrationHistograms s) ++
               (if IsGoodQuality input
                then mjoin (fills_of input vc <$> GetHarmonicsMap input) else [])).
  { unfold collect. destruct (IsGoodQuality input); [|by rewrite app_nil_r].
    rewrite for_each_harmonic_foldl, GetHarmonicsMap_harmonics.
    apply (collect_loop input vc (harmonics input) (fCalibrationHistograms s)). }
  unfold ProcessDataCollection.
  destruct (fState s) eqn:Hs; cbn [fst snd with_calibration fCalibrationHistograms fState
    fCorrectedQnVector fInputHistograms fQANotValidatedBin fApplyWidthEqualization
    fMinNoOfEntriesToValidate applying]; rewrite ?Hs, ?Hc, ?app_nil_r; by repeat split.
Qed.

(** X17.  The state of the step changes in [AttachInput] only: when the
    input profile is found the step goes to APPLY_COLLECT, whatever its state
    was, and returns true; when it is not found the state is kept and the
    call returns false.  [ProcessCorrections], [ProcessDataCollection],
    [ClearCorrectionStep] and [CreateSupportDataStructures] keep the state,
    and [AttachInput] keeps the corrected Qn vector. *)
Theorem fState_changes_in_AttachInput s c vc input :
  (forall s' c' applied,
     ProcessCorrections s c vc = Done (s', c', applied) -> fState s' = fState s) /\
  fState (ProcessDataCollection s input vc).1 = fState s /\
  fState (ClearCorrectionStep s) = fState s /\
  (forall s', CreateSupportDataStructures s c = Done s' -> fState s' = fState s) /\
  (AttachInput s None).2 = false /\
  fState (AttachInput s None).1 = fState s /\
  (forall found,
     Recentering.fCorrectedQnVector (AttachInput s found).1 =
     Recentering.fCorrectedQnVector s) /\
  (forall p, (AttachInput s (Some p)).2 = true /\
     fState (AttachInput s (Some p)).1 = QCORRSTEP_applyCollect).
Proof.
  split_and!; try done.
  - intros s' c' applied. unfold ProcessCorrections.
    destruct (fState s) eqn:Hs; [intros Heq; by simplify_eq| |];
      (destruct (IsGoodQuality (GetCurrentQnVector c));
       [destruct (Set_ _ _ _); [destruct (BinContentValidated _ _)|]|];
       intros Heq; simplify_eq; simpl; done).
  - unfold ProcessDataCollection. by destruct (fState s) eqn:Hs.
  - intros s'. unfold CreateSupportDataStructures.
    destruct (new _ _ _); [|done]. by intros [= <-].
  - by intros [p|].
Qed.

(** X18.  In APPLY_COLLECT and APPLY, for a current Qn vector of good
    quality, [ProcessCorrections] does not read what the corrected Qn vector
    of the step holds from the previous event: a step holding any other
    components and quality, under the same name and harmonic structure,
    gives the same result. *)
Theorem ProcessCorrections_ignores_stale_output s c vc stale :
  applying (fState s) = true ->
  IsGoodQuality (GetCurrentQnVector c) = true ->
  same_structure stale (fCorrectedQnVector s) ->
  fName stale = fName (fCorrectedQnVector s) ->
  fTitle stale = fTitle (fCorrectedQnVector s) ->
  ProcessCorrections (with_corrected s stale) c vc = ProcessCorrections s c vc.
Proof.
  intros Happ Hgood [Hh Hm] Hn Ht.
  assert (Hset : Set_ stale (GetCurrentQnVector c) false =
                 Set_ (fCorrectedQnVector s) (GetCurrentQnVector c) false).
  { unfold Set_. by rewrite Hh, Hm, Hn, Ht. }
  unfold ProcessCorrections. cbn [with_corrected fState fCorrectedQnVector].
  destruct (applying_cases s Happ) as [-> | ->]; rewrite Hgood, Hset;
    by destruct (Set_ _ _ _).
Qed.

End RecenteringMore.

Section RecenteringChain.
Import QnVector Recentering.
Context {F : Type} `{!FloatOps F}.
Implicit Types (s : QnCorrectionsQnVectorRecentering F)
  (c : QnCorrectionsDetectorConfigurationBase F) (vc : list F)
  (q : QnCorrectionsQnVector F).

Lemma wf_Reset q : wf q -> wf (Reset q).
Proof. intros (_ & _ & Hh). by repeat split. Qed.

Lemma chain_output s c q :
  wf (Recentering.fCorrectedQnVector s) ->
  length (fQnX q) = 16%nat -> length (fQnY q) = 16%nat ->
  fHighestHarmonic q = fHighestHarmonic (Recentering.fCorrectedQnVector s) ->
  fHarmonicMask q = fHarmonicMask (Recentering.fCorrectedQnVector s) ->
  wf q /\ wf (GetCurrentQnVector (UpdateCurrentQnVector c q)) /\
  same_structure q (Recentering.fCorrectedQnVector s) /\
  GetCurrentQnVector (UpdateCurrentQnVector c q) = q.
Proof.
  intros (_ & _ & Hmax) Hx Hy Hh Hm.
  assert (Hq : wf q) by (unfold wf; by rewrite Hh).
  split; [done|]. split; [exact Hq|]. split; [by split|done].
Qed.

(** X19.  A step whose corrected Qn vector has the harmonic structure of the
    current Qn vector never stops at the fatal error of [Set], and it hands
    the structure on: after [ProcessCorrections] the corrected Qn vector of
    the step and the current Qn vector of the detector configuration are well
    formed and have the structure they had, so that the next step of the
    chain and the next event find the same precondition;
    [ClearCorrectionStep] keeps it too. *)
Theorem ProcessCorrections_keeps_structure s c vc :
  wf (GetCurrentQnVector c) -> wf (Recentering.fCorrectedQnVector s) ->
  same_structure (Recentering.fCorrectedQnVector s) (GetCurrentQnVector c) ->
  exists s' c' applied, ProcessCorrections s c vc = Done (s', c', applied) /\
    wf (Recentering.fCorrectedQnVector s') /\ wf (GetCurrentQnVector c') /\
    same_structure (Recentering.fCorrectedQnVector s') (Recentering.fCorrectedQnVector s) /\
    same_structure (GetCurrentQnVector c') (GetCurrentQnVector c) /\
    wf (Recentering.fCorrectedQnVector (ClearCorrectionStep s')) /\
    same_structure (Recentering.fCorrectedQnVector (ClearCorrectionStep s'))
                   (GetCurrentQnVector c').
Proof.
  intros Hwfc Hwfs Hsame.
  assert (Hgen : forall q, length (fQnX q) = 16%nat -> length (fQnY q) = 16%nat ->
    fHighestHarmonic q = fHighestHarmonic (Recentering.fCorrectedQnVector s) ->
    fHarmonicMask q = fHarmonicMask (Recentering.fCorrectedQnVector s) ->
    wf q /\ wf (GetCurrentQnVector (UpdateCurrentQnVector c q)) /\
    same_structure q (Recentering.fCorrectedQnVector s) /\
    same_structure (GetCurrentQnVector (UpdateCurrentQnVector c q)) (GetCurrentQnVector c) /\
    wf (Reset q) /\
    same_structure (Reset q) (GetCurrentQnVector (UpdateCurrentQnVector c q))).
  { intros q Hx Hy Hh Hm.
    destruct (chain_output s c q Hwfs Hx Hy Hh Hm) as (Hq & Hc & Hs & Hcur).
    destruct Hsame as [Hsh Hsm].
    split_and!; try done.
    - unfold same_structure, GetCurrentQnVector in *. simpl. by rewrite Hh, Hm.
    - by apply wf_Reset. }
  destruct (Set_done _ _ false Hsame) as (r & Hset & HX & HY & _ & Hh & Hm & _).
  destruct Hwfc as (Hcx & Hcy & Hcmax).
  unfold ProcessCorrections. destruct (fState s) eqn:Hst.
  - exists s, c, false. split; [done|].
    destruct Hsame as [Hsh Hsm]. split_and!; try done. by apply wf_Reset.
  - destruct (IsGoodQuality (GetCurrentQnVector c)).
    + rewrite Hset. destruct (BinContentValidated _ _).
      * eexists _, _, _. split; [done|]. simpl.
        destruct (recenter_loop s (GetCurrentQnVector c)
          (pc_GetBin (Recentering.fInputHistograms s) vc) r) as [Hinv _].
        { by repeat split. } { by rewrite HX. } { by rewrite HY. }
        destruct Hinv as (? & ? & Hrh & Hrm & _).
        apply Hgen; congruence.
      * eexists _, _, _. split; [done|]. simpl. apply Hgen; congruence.
    + eexists _, _, _. split; [done|]. simpl. apply Hgen; try done; apply Hwfs.
  - destruct (IsGoodQuality (GetCurrentQnVector c)).
    + rewrite Hset. destruct (BinContentValidated _ _).
      * eexists _, _, _. split; [done|]. simpl.
        destruct (recenter_loop s (GetCurrentQnVector c)
          (pc_GetBin (Recentering.fInputHistograms s) vc) r) as [Hinv _].
        { by repeat split. } { by rewrite HX. } { by rewrite HY. }
        destruct Hinv as (? & ? & Hrh & Hrm & _).
        apply Hgen; congruence.
      * eexists _, _, _. split; [done|]. simpl. apply Hgen; congruence.
    + eexists _, _, _. split; [done|]. simpl. apply Hgen; try done; apply Hwfs.
Qed.

(** X20.  [CreateSupportDataStructures] builds the corrected Qn vector of the
    step from the number of harmonics and the harmonics map of the detector
    configuration.  For a well formed Qn vector of the configuration built by
    the constructors and [ActivateHarmonic] the creation completes and the
    new vector has the harmonic structure of the vectors of the
    configuration, the name of the correction, zero components and bad
    quality; the state and the profiles of the step are kept. *)
Theorem CreateSupportDataStructures_matches s c :
  wf (fPlainQnVector c) -> tight (fPlainQnVector c) ->
  exists s', CreateSupportDataStructures s c = Done s' /\
    same_structure (Recentering.fCorrectedQnVector s') (fPlainQnVector c) /\
    (same_structure (GetCurrentQnVector c) (fPlainQnVector c) ->
     same_structure (Recentering.fCorrectedQnVector s') (GetCurrentQnVector c)) /\
    wf (Recentering.fCorrectedQnVector s') /\ tight (Recentering.fCorrectedQnVector s') /\
    IsGoodQuality (Recentering.fCorrectedQnVector s') = false /\
    fName (Recentering.fCorrectedQnVector s') = szCorrectedQnVectorName /\
    (forall k, Qx (Recentering.fCorrectedQnVector s') k = fzero /\
               Qy (Recentering.fCorrectedQnVector s') k = fzero) /\
    fState s' = fState s /\
    fInputHistograms s' = fInputHistograms s /\
    fCalibrationHistograms s' = fCalibrationHistograms s /\
    calibration_inv s'.
Proof.
  intros Hwf Ht.
  destruct (new_from_harmonic_map szCorrectedQnVectorName _ Hwf Ht)
    as (q' & Hnew & Hsame & Hwf' & Ht' & Hg & Hn & Hz).
  unfold CreateSupportDataStructures. rewrite Hnew.
  eexists. split; [done|]. simpl. split_and!; try done.
  - intros [Hh Hm]. destruct Hsame as [Hh' Hm']. split; congruence.
  - by intros _.
Qed.

(** X21.  The detector configuration is constructed with Qn vectors of the
    structure asked for, the current one equal to the plain one; a number of
    harmonics above the supported maximum is fatal.  With the default harmonics [1 .. n] the vectors are well
    formed with a tight structure: what [CreateSupportDataStructures] and
    [ProcessCorrections] need. *)
Theorem new_configuration_default (name : string) (n : Z) :
  (MAXHARMONICNUMBERSUPPORTED < n -> new_configuration (F:=F) name n None = Fatal) /\
  (1 <= n <= MAXHARMONICNUMBERSUPPORTED ->
   exists c, new_configuration (F:=F) name n None = Done c /\
     GetCurrentQnVector c = fPlainQnVector c /\
     wf (fPlainQnVector c) /\ tight (fPlainQnVector c) /\
     same_structure (fTempQnVector c) (fPlainQnVector c) /\
     IsGoodQuality (fPlainQnVector c) = false /\
     forall h, active (fPlainQnVector c) h = true <-> 1 <= h <= n).
Proof.
  unfold new_configuration. split.
  - intros Hn. unfold new. by destruct (Z.ltb_spec MAXHARMONICNUMBERSUPPORTED n); [|lia].
  - intros [H1 Hn].
    destruct (new_default_done (F:=F) "plain" n Hn)
      as (p & -> & Hwfp & Hhp & Hnp & Hgp & Hap & Hzp & Htp).
    destruct (new_default_done (F:=F) "temp" n Hn)
      as (t & -> & Hwft & Hht & Hnt & Hgt & Hat & Hzt & Htt).
    eexists. split; [done|]. simpl. split_and!; try done.
    + by apply Htp.
    + split; [by rewrite Hht, Hhp|].
      apply tight_same_mask; [done|by apply Htp|by apply Htt|by rewrite Hht, Hhp|].
      intros h. by rewrite Hat, Hap.
Qed.

(** X22.  A step in CALIBRATION always holds a corrected Qn vector of bad
    quality: [CreateSupportDataStructures] and [ClearCorrectionStep]
    establish it, [ProcessCorrections] and [ProcessDataCollection] keep it,
    and [AttachInput] either keeps the step or leaves the calibration
    state. *)
Theorem calibration_holds_bad_vector s c vc input found :
  calibration_inv (ClearCorrectionStep s) /\
  (forall s', CreateSupportDataStructures s c = Done s' -> calibration_inv s') /\
  (calibration_inv s ->
     (forall s' c' applied,
        ProcessCorrections s c vc = Done (s', c', applied) -> calibration_inv s') /\
     calibration_inv (ProcessDataCollection s input vc).1 /\
     calibration_inv (AttachInput s found).1).
Proof.
  split_and!.
  - apply calibration_inv_ClearCorrectionStep.
  - intros s'. unfold CreateSupportDataStructures, calibration_inv.
    destruct (new _ _ _) as [q|] eqn:Hnew; [|done]. intros [= <-] _. simpl.
    revert Hnew. unfold new.
    repeat (case_match; try done); intros; simplify_eq; done.
  - intros Hinv. split_and!.
    + intros s' c' applied. by apply calibration_inv_ProcessCorrections.
    + by apply calibration_inv_ProcessDataCollection.
    + destruct found; [done|exact Hinv].
Qed.

End RecenteringChain.

(** ** The gain equalization step, continued *)

Section InputGainEqualizationMore.
Import InputGainEqualization.
Context {F : Type} `{!FloatOps F}.
Implicit Types (s : QnCorrectionsInputGainEqualization F)
  (c : QnCorrectionsDetectorConfigurationBase F) (vc : list F)
  (d : QnCorrectionsDataVectorChannelized F)
  (bank : list (QnCorrectionsDataVectorChannelized F)).

Lemma collect_fills s bank vc :
  pch_fills (fCalibrationHistograms (collect s bank vc)) =
  pch_fills (fCalibrationHistograms s) ++ ((fun d => (vc, GetId d, Weight d)) <$> bank).
Proof.
  unfold collect. cbn [with_calibration fCalibrationHistograms].
  generalize (fCalibrationHistograms s). induction bank as [|d bank IH]; intros p.
  - by rewrite app_nil_r.
  - cbn [foldl fmap list_fmap]. rewrite IH. cbn [Fill_channelized pch_fills].
    by rewrite <- app_assoc.
Qed.

Lemma apply_collect s bank bank' vc : apply (collect s bank' vc) bank vc = apply s bank vc.
Proof. reflexivity. Qed.

(** What every equalization method keeps of a data vector. *)
Lemma apply_lookup s bank vc i d :
  bank !! i = Some d ->
  exists d', apply s bank vc !! i = Some d' /\
    Phi d' = Phi d /\ GetId d' = GetId d /\ Weight d' = Weight d /\
    EqualizedWeight d' =
      match fEqualizationMethod s with
      | QEQUAL_noEqualization => Weight d
      | QEQUAL_averageEqualization => EqualizedWeight (equalize_average s vc d)
      | QEQUAL_widthEqualization => EqualizedWeight (equalize_width s vc d)
      end.
Proof.
  intros Hd. unfold apply.
  destruct (fEqualizationMethod s); rewrite list_lookup_fmap, Hd; simpl;
    eexists; (split; [done|]); unfold equalize_average, equalize_width;
    try destruct (fMinimumSignificantValue <? _)%F; by repeat split.
Qed.

Lemma length_apply s bank vc : length (apply s bank vc) = length bank.
Proof. unfold apply. destruct (fEqualizationMethod s); by rewrite length_fmap. Qed.

Lemma Process_bank s c vc :
  (Process s c vc).2 = applying (fState s) /\
  GetInputDataBank (Process s c vc).1.2 =
    (if applying (fState s) then apply s (GetInputDataBank c) vc else GetInputDataBank c) /\
  fPlainQnVector (Process s c vc).1.2 = fPlainQnVector c /\
  GetCurrentQnVector (Process s c vc).1.2 = GetCurrentQnVector c /\
  (applying (fState s) = false -> (Process s c vc).1.2 = c).
Proof. unfold Process. by destruct (fState s). Qed.

(** X23.  What [Process] never does: in every state and with every
    equalization method the bank keeps its length and every data vector its
    angle, channel id and raw weight (only the equalized weight is written);
    the Qn vectors of the detector configuration, the state, the input
    histograms and the parameters of the step are kept; in CALIBRATION the
    detector configuration is not touched at all.  The value returned is
    false in CALIBRATION and true otherwise. *)
Theorem Process_keeps_raw_data s c vc :
  let s' := (Process s c vc).1.1 in
  let c' := (Process s c vc).1.2 in
  (Process s c vc).2 = applying (fState s) /\
  length (GetInputDataBank c') = length (GetInputDataBank c) /\
  (forall i d, GetInputDataBank c !! i = Some d ->
     exists d', GetInputDataBank c' !! i = Some d' /\
       Phi d' = Phi d /\ GetId d' = GetId d /\ Weight d' = Weight d) /\
  fPlainQnVector c' = fPlainQnVector c /\
  GetCurrentQnVector c' = GetCurrentQnVector c /\
  (fState s = QCORRSTEP_calibration -> c' = c) /\
  fState s' = fState s /\ fInputHistograms s' = fInputHistograms s /\
  fEqualizationMethod s' = fEqualizationMethod s /\
  fA s' = fA s /\ fB s' = fB s /\
  fUseChannelGroupsWeights s' = fUseChannelGroupsWeights s /\
  fHardCodedWeights s' = fHardCodedWeights s.
Proof.
  destruct (Process_bank s c vc) as (Hr & Hb & Hp & Hc & Hcal).
  cbn zeta. rewrite Hb. split_and!; try done.
  - destruct (applying (fState s)); [apply length_apply|done].
  - intros i d Hd. destruct (applying (fState s)).
    + destruct (apply_lookup s _ vc i d Hd) as (d' & ? & ? & ? & ? & _). by exists d'.
    + by exists d.
  - intros Hst. apply Hcal. by rewrite Hst.
  - unfold Process. by destruct (fState s) eqn:Hst.
  - unfold Process. by destruct (fState s).
  - unfold Process. by destruct (fState s).
  - unfold Process. by destruct (fState s).
  - unfold Process. by destruct (fState s).
  - unfold Process. by destruct (fState s).
  - unfold Process. by destruct (fState s).
Qed.

(** X24.  In CALIBRATION and APPLY_COLLECT [Process] fills the calibration
    histograms once per data vector of the bank, in the order of the bank,
    with the channel id and the raw weight (never the equalized one); in
    APPLY it fills nothing. *)
Theorem Process_collects_raw_weights s c vc :
  pch_fills (fCalibrationHistograms (Process s c vc).1.1) =
  pch_fills (fCalibrationHistograms s) ++
    match fState s with
    | QCORRSTEP_apply => []
    | _ => (fun d => (vc, GetId d, Weight d)) <$> GetInputDataBank c
    end.
Proof.
  unfold Process.
  destruct (fState s); cbn [fst snd]; rewrite ?collect_fills, ?app_nil_r; done.
Qed.

(** X25.  In width mode, when the step applies, every data vector of the
    bank gets the equalized weight
    [(A + B * (rawWeight - channelAverage) / channelWidth) * groupWeight]
    when the channel average read from the input histograms exceeds 1e-6,
    and 0 otherwise; the group weight is the content of the group bin when
    channel groups weights are in use, else the hard coded weight of the
    channel when there are hard coded weights, else 1. *)
Theorem Process_width_equalization s c vc :
  applying (fState s) = true ->
  fEqualizationMethod s = QEQUAL_widthEqualization ->
  forall i d, GetInputDataBank c !! i = Some d ->
    exists d', GetInputDataBank (Process s c vc).1.2 !! i = Some d' /\
      Weight d' = Weight d /\
      let bin := pi_GetBin (fInputHistograms s) vc (GetId d) in
      let channelAverage := pi_GetBinContent (fInputHistograms s) bin in
      let channelWidth := pi_GetBinError (fInputHistograms s) bin in
      let groupWeight :=
        if fUseChannelGroupsWeights s then
          pi_GetGrpBinContent (fInputHistograms s)
            (pi_GetGrpBin (fInputHistograms s) vc (GetId d))
        else match fHardCodedWeights s with
             | Some weights => rd weights (GetId d)
             | None => fone
             end in
      EqualizedWeight d' =
        (if fMinimumSignificantValue <? channelAverage
         then (fA s + fB s * (Weight d - channelAverage) / channelWidth) * groupWeight
         else fzero)%F.
Proof.
  intros Happ Hm i d Hd.
  destruct (Process_bank s c vc) as (_ & Hb & _). rewrite Hb, Happ.
  destruct (apply_lookup s _ vc i d Hd) as (d' & Hd' & _ & _ & Hw & He).
  exists d'. split; [done|]. split; [done|]. cbn zeta. rewrite He, Hm.
  unfold equalize_width, groupweight.
  by destruct (fMinimumSignificantValue <? _)%F.
Qed.

(** X26.  Without equalization, when the step applies, the equalized weight
    of every data vector of the bank is its raw weight, whatever the input
    histograms hold. *)
Theorem Process_no_equalization s c vc :
  applying (fState s) = true ->
  fEqualizationMethod s = QEQUAL_noEqualization ->
  length (GetInputDataBank (Process s c vc).1.2) = length (GetInputDataBank c) /\
  forall i d', GetInputDataBank (Process s c vc).1.2 !! i = Some d' ->
    EqualizedWeight d' = Weight d' /\
    exists d, GetInputDataBank c !! i = Some d /\ Weight d' = Weight d.
Proof.
  intros Happ Hm.
  destruct (Process_bank s c vc) as (_ & Hb & _). rewrite Hb, Happ.
  split; [apply length_apply|].
  intros i d'. unfold apply. rewrite Hm, list_lookup_fmap.
  destruct (GetInputDataBank c !! i) as [d|] eqn:Hd; [|done].
  intros [= <-]. split; [done|]. by exists d.
Qed.

Lemma equalize_average_idempotent s vc d :
  equalize_average s vc (equalize_average s vc d) = equalize_average s vc d.
Proof.
  assert (Hw : forall w, equalize_average s vc (SetEqualizedWeight d w) =
                         equalize_average s vc d) by reflexivity.
  unfold equalize_average at 2. by destruct (fMinimumSignificantValue <? _)%F.
Qed.

Lemma equalize_width_idempotent s vc d :
  equalize_width s vc (equalize_width s vc d) = equalize_width s vc d.
Proof.
  assert (Hw : forall w, equalize_width s vc (SetEqualizedWeight d w) =
                         equalize_width s vc d) by reflexivity.
  unfold equalize_width at 2. by destruct (fMinimumSignificantValue <? _)%F.
Qed.

Lemma apply_idempotent s bank vc : apply s (apply s bank vc) vc = apply s bank vc.
Proof.
  unfold apply. destruct (fEqualizationMethod s); rewrite <- list_fmap_compose;
    apply list_fmap_ext; intros ? d ?; simpl;
    [done|apply equalize_average_idempotent|apply equalize_width_idempotent].
Qed.

(** X27.  The equalized weights are a function of the raw weights, the
    channel ids and the input histograms only: processing the same event
    again gives the same input data bank, in APPLY the same step and
    detector configuration altogether. *)
Theorem Process_twice s c vc :
  let s1 := (Process s c vc).1.1 in
  let c1 := (Process s c vc).1.2 in
  GetInputDataBank (Process s1 c1 vc).1.2 = GetInputDataBank c1 /\
  (fState s = QCORRSTEP_apply -> Process s1 c1 vc = Process s c vc).
Proof.
  unfold Process. destruct (fState s) eqn:Hst; cbn [fst snd];
    cbn [collect with_calibration fState]; rewrite Hst; cbn [fst snd].
  - done.
  - split; [|done]. unfold GetInputDataBank, with_bank. cbn [fDataVectorBank].
    rewrite !apply_collect. apply apply_idempotent.
  - split.
    + unfold GetInputDataBank, with_bank. cbn [fDataVectorBank]. apply apply_idempotent.
    + intros _. unfold GetInputDataBank, with_bank. simpl.
      by rewrite apply_idempotent.
Qed.

End InputGainEqualizationMore.

(** ** Runs of the further properties on binary64 floats *)

Lemma tight_vector name x y good : QnVector.tight (Run.vector name x y good).
Proof.
  split; [reflexivity|]. intros i Hi Hb. simpl in Hb.
  destruct (Z.le_gt_cases 2 i) as [Hge|Hlt].
  - rewrite (Z.bits_above_log2 2 i) in Hb; [done|lia|]. simpl. lia.
  - assert (i = 0 \/ i = 1) as [-> | ->] by lia; [done|simpl; lia].
Qed.

Lemma tight_vector12 name x y good : QnVector.tight (Run.vector12 name x y good).
Proof.
  split; [reflexivity|]. intros i Hi Hb. simpl in Hb.
  destruct (Z.le_gt_cases 3 i) as [Hge|Hlt].
  - rewrite (Z.bits_above_log2 6 i) in Hb; [done|lia|]. simpl. lia.
  - assert (i = 0 \/ i = 1 \/ i = 2) as [-> | [-> | ->]] by lia; [done|simpl; lia..].
Qed.

Lemma legacy_wf_vector x y : QnVectors.wf (Run.legacy_vector x y).
Proof. repeat split. unfold nMaxHarmonicNumberSupported. simpl. lia. Qed.

(** The harmonics map of a vector with harmonics 1 and 2 builds a vector of
    the same structure. *)
Lemma harmonic_map_round_trip_witness :
  exists q',
    QnVector.new "rec" (QnVector.GetNoOfHarmonics (Run.vector12 "plain" 3 4 true))
      (Some (QnVector.GetHarmonicsMap (Run.vector12 "plain" 3 4 true))) = Done q' /\
    QnVector.same_structure q' (Run.vector12 "plain" 3 4 true).
Proof.
  destruct (harmonic_map_round_trip "rec" (Run.vector12 "plain" 3 4 true)
              (wf_vector12 _ _ _ _) (tight_vector12 _ _ _ _)) as (q' & Hnew & Hsame & _).
  exists q'. split; [exact Hnew|exact Hsame].
Defined.

(** Activating harmonic 2 on a vector with harmonic 1. *)
Lemma ActivateHarmonic_grows_witness :
  exists q', QnVector.ActivateHarmonic (Run.vector "plain" 3 4 true) 2 = Done q' /\
    QnVector.active q' 2 = true /\ QnVector.fHighestHarmonic q' = 2 /\
    QnVector.ActivateHarmonic q' 2 = Done q'.
Proof.
  eexists. split; [reflexivity|].
  destruct (ActivateHarmonic_grows (Run.vector "plain" 3 4 true) 2 _
              (wf_vector _ _ _ _)
              ltac:(unfold MAXHARMONICNUMBERSUPPORTED; lia) eq_refl)
    as (_ & Hact & Hh & _ & Hidem & _).
  split; [exact Hact|]. split; [exact Hh|exact Hidem].
Defined.

(** (4, 2) with sum of weights 2 plus (1, 1) with sum of weights 3, one
    entry each; and 2147483647 entries plus one wrap around. *)
Lemma Add_spec_witness :
  QnVector.Qx (QnVector.Qn (QnVector.Add (Run.build 4 2 2) (Run.build 1 1 3))) 1 = 5%float /\
  QnVector.fSumW (QnVector.Add (Run.build 4 2 2) (Run.build 1 1 3)) = 5%float /\
  QnVector.fN (QnVector.Add (Run.build 4 2 2) (Run.build 1 1 3)) = 2 /\
  QnVector.fN
    (QnVector.Add
       {| QnVector.Qn := Run.vector "build" 4 2 true; QnVector.fSumW := 2%float;
          QnVector.fN := 2147483647 |}
       (Run.build 1 1 3)) = -2147483648.
Proof.
  destruct (Add_spec (Run.build 4 2 2) (Run.build 1 1 3) (wf_vector _ _ _ _))
    as (Hw & _ & _ & Hn & _ & Hk).
  split; [exact (proj1 (Hk 1 ltac:(lia)))|]. split; [exact Hw|].
  split; [exact (Hn ltac:(simpl; lia))|].
  exact (proj1 (proj2 (Add_spec
           {| QnVector.Qn := Run.vector "build" 4 2 true; QnVector.fSumW := 2%float;
              QnVector.fN := 2147483647 |}
           (Run.build 1 1 3) (wf_vector _ _ _ _)))).
Defined.

(** The loops of QnCorrectionsQnVectors.cxx on a vector with harmonic 1:
    no component changes, and [Add] counts 1 + 1 entries. *)
Lemma legacy_loops_keep_components_witness :
  QnVectors.Normalize (QnVectors.Qn (Run.legacy_build 3 4 2))
    = QnVectors.Qn (Run.legacy_build 3 4 2) /\
  QnVectors.NormalizeQoverSquareRootOfM (Run.legacy_build 3 4 2) = Run.legacy_build 3 4 2 /\
  QnVectors.Add (Run.legacy_build 3 4 2) (Run.legacy_build 1 1 1) =
    {| QnVectors.Qn := Run.legacy_vector 3 4; QnVectors.fSumW := 3%float;
       QnVectors.fN := 2 |}.
Proof.
  destruct (legacy_loops_keep_components (Run.legacy_build 3 4 2) (Run.legacy_build 1 1 1)
              eq_refl) as (Hn & Hs & _ & Ha).
  split; [exact Hn|]. split; [exact Hs|].
  exact (Ha ltac:(simpl; lia)).
Defined.

(** [ActivateHarmonic] of QnCorrectionsQnVectors.cxx on the harmonic that is
    already there. *)
Lemma legacy_ActivateHarmonic_always_resets_witness :
  exists q', QnVectors.ActivateHarmonic (Run.legacy_vector 3 4) 1 = Done q' /\
    QnVectors.Qx q' 1 = 0%float /\ QnVectors.Qy q' 1 = 0%float.
Proof.
  destruct (legacy_ActivateHarmonic_always_resets (Run.legacy_vector 3 4) 1
              (legacy_wf_vector _ _) eq_refl
              ltac:(unfold nMaxHarmonicNumberSupported; lia))
    as (q' & Hq & Hx & Hy & _).
  exists q'. split; [exact Hq|]. split; [exact Hx|exact Hy].
Defined.

(** A step that still holds (9, 9) from the previous event gives the result
    of the cleared step. *)
Lemma ProcessCorrections_ignores_stale_output_witness :
  Recentering.ProcessCorrections
    (Recentering.with_corrected (Run.recentering QCORRSTEP_apply 5 None false)
       (Run.vector "rec" 9 9 true))
    (Run.configuration 5 5 true 2) [] =
  Recentering.ProcessCorrections (Run.recentering QCORRSTEP_apply 5 None false)
    (Run.configuration 5 5 true 2) [].
Proof.
  exact (ProcessCorrections_ignores_stale_output
           (Run.recentering QCORRSTEP_apply 5 None false)
           (Run.configuration 5 5 true 2) [] (Run.vector "rec" 9 9 true)
           eq_refl eq_refl (conj eq_refl eq_refl) eq_refl eq_refl).
Defined.

(** The step of the runs keeps the structure of its vector. *)
Lemma ProcessCorrections_keeps_structure_witness :
  exists s' c' applied,
    Recentering.ProcessCorrections (Run.recentering QCORRSTEP_apply 5 None false)
      (Run.configuration 5 5 true 2) [] = Done (s', c', applied) /\
    QnVector.same_structure (Recentering.fCorrectedQnVector s')
      (Recentering.fCorrectedQnVector (Run.recentering QCORRSTEP_apply 5 None false)) /\
    QnVector.same_structure (GetCurrentQnVector c')
      (GetCurrentQnVector (Run.configuration 5 5 true 2)).
Proof.
  destruct (ProcessCorrections_keeps_structure
              (Run.recentering QCORRSTEP_apply 5 None false)
              (Run.configuration 5 5 true 2) []
              (wf_vector _ _ _ _) (wf_vector _ _ _ _) (conj eq_refl eq_refl))
    as (s' & c' & applied & HP & _ & _ & Hs & Hc & _).
  exists s', c', applied. split; [exact HP|]. split; [exact Hs|exact Hc].
Defined.

(** The step created for the detector configuration of the runs. *)
Lemma CreateSupportDataStructures_matches_witness :
  exists s',
    Recentering.CreateSupportDataStructures
      (Run.recentering QCORRSTEP_calibration 0 None false)
      (Run.configuration 5 5 true 2) = Done s' /\
    QnVector.same_structure (Recentering.fCorrectedQnVector s')
      (fPlainQnVector (Run.configuration 5 5 true 2)).
Proof.
  destruct (CreateSupportDataStructures_matches
              (Run.recentering QCORRSTEP_calibration 0 None false)
              (Run.configuration 5 5 true 2)
              (wf_vector _ _ _ _) (tight_vector _ _ _ _))
    as (s' & Hs' & Hsame & _).
  exists s'. split; [exact Hs'|exact Hsame].
Defined.

(** Width mode at raw weight 2, channel average 4, width 1, A = 1, B = 2:
    (1 + 2 * (2 - 4) / 1) * 1 = -3. *)
Lemma Process_width_equalization_witness :
  exists d',
    GetInputDataBank
      (InputGainEqualization.Process
         (Run.gain_equalization_method InputGainEqualization.QEQUAL_widthEqualization
            QCORRSTEP_apply 4)
         (Run.configuration 5 5 true 2) []).1.2 !! 0%nat = Some d' /\
    Weight d' = 2%float /\ EqualizedWeight d' = (-3)%float.
Proof.
  destruct (Process_width_equalization
              (Run.gain_equalization_method InputGainEqualization.QEQUAL_widthEqualization
                 QCORRSTEP_apply 4)
              (Run.configuration 5 5 true 2) [] eq_refl eq_refl 0%nat _ eq_refl)
    as (d' & Hd' & Hw & He).
  exists d'. split; [exact Hd'|]. split; [exact Hw|exact He].
Defined.

(** Without equalization the equalized weight is the raw weight 2. *)
Lemma Process_no_equalization_witness :
  exists d',
    GetInputDataBank
      (InputGainEqualization.Process
         (Run.gain_equalization_method InputGainEqualization.QEQUAL_noEqualization
            QCORRSTEP_applyCollect 4)
         (Run.configuration 5 5 true 2) []).1.2 !! 0%nat = Some d' /\
    EqualizedWeight d' = 2%float.
Proof.
  destruct (Process_no_equalization
              (Run.gain_equalization_method InputGainEqualization.QEQUAL_noEqualization
                 QCORRSTEP_applyCollect 4)
              (Run.configuration 5 5 true 2) [] eq_refl eq_refl) as [_ Hd].
  eexists. split; [reflexivity|].
  exact (proj1 (Hd 0%nat _ eq_refl)).
Defined.
